(** * Verification of the connection pool (conn_pool.go)

    A shallow embedding of [connectionPool] and its methods
    [GetWithTimeout], [Get], [Return], [Close] and [StartTapFeed].

    Modelling decisions.
    - A Go channel is a record holding its buffer, its capacity and its
      closed flag; [chansend], [chanrecv] and [closechan] follow the
      order of the tests made by the Go runtime functions of the same
      names.
    - A method body is a computation in a small monad over the [store]
      (the pool object, the package variable [ConnPoolTimeout] and the
      trace of calls made on collaborators).  Its outcome is a normal
      return, a goroutine parked on a communication ([Block]) or a panic.
    - Whatever the other goroutines, the timers and the network decide
      is read from an [Env]: elapsed time at each [select], the
      pseudo-random number with which [select] picks among the ready
      communications, the results of the collaborators' calls.
    - Each method runs atomically between two stores; [step] interleaves
      whole method calls (and the two halves of [StartTapFeed]). *)

From Stdlib Require Import List ZArith String Bool Arith Lia.
Import ListNotations.

Set Implicit Arguments.

(** ** Go values *)

(** An [error] built by [errors.New] is identified by its message. *)
Definition error := string.
Definition errors_New (msg : string) : error := msg.

Definition TimeoutError : error :=
  errors_New "timeout waiting to build connection".
Definition closedPool : error := errors_New "the pool is closed".

(** [int] and [time.Duration] are 64-bit signed integers. *)
Definition wrap64 (z : Z) : Z := ((z + 2 ^ 63) mod 2 ^ 64 - 2 ^ 63)%Z.
Definition int64_range (z : Z) : Prop := (- 2 ^ 63 <= z < 2 ^ 63)%Z.

Definition Duration := Z.
Definition Millisecond : Duration := 1000000%Z.
Definition Hour : Duration := 3600000000000%Z.

(** [var ConnPoolTimeout = time.Hour * 24 * 30] *)
Definition ConnPoolTimeout_default : Duration :=
  wrap64 (wrap64 (Hour * 24) * 30).

(** A [*memcached.Client] is a pointer; [None] stands for [nil]. *)
Definition Client := nat.

Record TapArguments := { tap_args : nat }.
Record TapFeed := { feed_of : Client }.

(** The credential provider: [GetCredentials() (string, string)]. *)
Record AuthHandler := { GetCredentials : string * string }.

(** Calls made on collaborators, in the order they happen. *)
Inductive event :=
| EvConnect (network host : string)
| EvAuth (c : Client) (name : string)
| EvMkConn (host : string)
| EvIsHealthy (c : Client)
| EvClose (c : Client)
| EvStartTapFeed (c : Client) (args : TapArguments).

(** The network as seen by one factory call: [memcached.Connect]
    gives a client or an error, [conn.Auth] an error or [nil]. *)
Record Net := {
  Connect : string -> string -> Client + error;
  Auth : Client -> string -> string -> option error
}.

(** The type of the field [mkConn]: from a host and a credential
    provider to a client and an error, with the calls the factory made
    on the connection it was building. *)
Definition Factory :=
  string -> AuthHandler -> Net -> (option Client * option error) * list event.

(** ** Channels *)

Record chan (A : Type) := mkChan {
  buf : list A;
  cap : nat;
  closed : bool
}.

Definition make_chan (A : Type) (n : Z) : option (chan A) :=
  if (n <? 0)%Z then None
  else Some {| buf := []; cap := Z.to_nat n; closed := false |}.

Inductive send_result (A : Type) :=
| SendQueued (ch : chan A)
| SendHandoff
| SendBlock
| SendPanic.
Arguments SendHandoff {A}.
Arguments SendBlock {A}.
Arguments SendPanic {A}.

(** [recv_parked]: a goroutine is parked receiving on the channel (then
    the buffer is empty); the value goes to it directly. *)
Definition chansend (A : Type) (ch : chan A) (v : A) (recv_parked : bool)
  : send_result A :=
  if closed ch then SendPanic
  else if recv_parked then SendHandoff
  else if List.length (buf ch) <? cap ch
       then SendQueued {| buf := buf ch ++ [v]; cap := cap ch;
                          closed := closed ch |}
       else SendBlock.

Definition send_ready (A : Type) (ch : chan A) (recv_parked : bool) : bool :=
  closed ch || recv_parked || (List.length (buf ch) <? cap ch).

Inductive recv_result (A : Type) :=
| RecvValue (v : A) (ch : chan A)
| RecvClosed
| RecvBlock.
Arguments RecvClosed {A}.
Arguments RecvBlock {A}.

Definition chanrecv (A : Type) (ch : chan A) : recv_result A :=
  match buf ch with
  | v :: rest =>
      RecvValue v {| buf := rest; cap := cap ch; closed := closed ch |}
  | [] => if closed ch then RecvClosed else RecvBlock
  end.

Definition recv_ready (A : Type) (ch : chan A) : bool :=
  match buf ch with
  | _ :: _ => true
  | [] => closed ch
  end.

Definition closechan (A : Type) (ch : chan A) : option (chan A) :=
  if closed ch then None
  else Some {| buf := buf ch; cap := cap ch; closed := true |}.

(** [select]: among the communications that can proceed, one is chosen
    by a pseudo-random number; [None] when none can proceed. *)
Definition ready_cases (C : Type) (cases : list (C * bool)) : list C :=
  map fst (filter snd cases).

Definition select (C : Type) (cases : list (C * bool)) (rnd : nat) : option C :=
  let r := ready_cases cases in
  nth_error r (rnd mod List.length r).

(** ** The pool and the store *)

Record connectionPool := {
  host : string;
  mkConn : Factory;
  auth : AuthHandler;
  connections : chan Client;
  createsem : chan bool
}.

Record store := {
  pool : connectionPool;
  ConnPoolTimeout : Duration;
  trace : list event
}.

(** The receiver [cp] of a method: [nil] or the pool of the store. *)
Inductive poolref := nilPool | thePool.

Record Env := {
  elapsed1 : Duration;   (* since [time.NewTimer], at the first [select] *)
  rnd1 : nat;
  elapsed2 : Duration;   (* since [t.Reset(d)], at the second [select] *)
  rnd2 : nat;
  net : Net;
  IsHealthy : Client -> bool;
  recv_parked : bool;    (* a [GetWithTimeout] is parked on [connections] *)
  startTapFeed : Client -> TapArguments -> option TapFeed * option error
}.

(** ** The monad of method bodies *)

Inductive outcome (A : Type) :=
| Ret (a : A)
| Block
| Panic (v : error).
Arguments Block {A}.
Arguments Panic {A} v.

Definition M (A : Type) := store -> outcome A * store.

Definition ret (A : Type) (a : A) : M A := fun s => (Ret a, s).

Definition bind (A B : Type) (m : M A) (k : A -> M B) : M B :=
  fun s =>
    match m s with
    | (Ret a, s') => k a s'
    | (Block, s') => (Block, s')
    | (Panic v, s') => (Panic v, s')
    end.

Definition block {A : Type} : M A := fun s => (Block, s).
Definition panic {A : Type} (v : error) : M A := fun s => (Panic v, s).

Declare Scope go_scope.
Delimit Scope go_scope with go.
Notation "x <- m ;; k" := (bind m (fun x => k))
  (at level 61, m at next level, right associativity) : go_scope.
Notation "m ;; k" := (bind m (fun _ => k))
  (at level 61, right associativity) : go_scope.
Open Scope go_scope.

Definition set_connections (ch : chan Client) (s : store) : store :=
  {| pool := {| host := host (pool s); mkConn := mkConn (pool s);
                auth := auth (pool s); connections := ch;
                createsem := createsem (pool s) |};
     ConnPoolTimeout := ConnPoolTimeout s; trace := trace s |}.

Definition set_createsem (ch : chan bool) (s : store) : store :=
  {| pool := {| host := host (pool s); mkConn := mkConn (pool s);
                auth := auth (pool s); connections := connections (pool s);
                createsem := ch |};
     ConnPoolTimeout := ConnPoolTimeout s; trace := trace s |}.

(** The capacity tokens held, the idle connections, the lifecycle. *)
Definition tokens (s : store) : nat := List.length (buf (createsem (pool s))).
Definition queued (s : store) : list Client := buf (connections (pool s)).
Definition is_closed (s : store) : bool := closed (connections (pool s)).
Definition poolSize_of (s : store) : nat := cap (connections (pool s)).
Definition capacity_of (s : store) : nat := cap (createsem (pool s)).

Definition add_trace (evs : list event) (s : store) : store :=
  {| pool := pool s; ConnPoolTimeout := ConnPoolTimeout s;
     trace := trace s ++ evs |}.

Definition emit (evs : list event) : M unit :=
  fun s => (Ret tt, add_trace evs s).

Definition send_on_closed : error := "send on closed channel"%string.
Definition close_of_closed : error := "close of closed channel"%string.
Definition nil_dereference : error :=
  "invalid memory address or nil pointer dereference"%string.

(** [rv, isopen := <-cp.connections] *)
Definition recv_connections : M (option Client * bool) :=
  fun s =>
    match chanrecv (connections (pool s)) with
    | RecvValue v ch => (Ret (Some v, true), set_connections ch s)
    | RecvClosed => (Ret (None, false), s)
    | RecvBlock => (Block, s)
    end.

(** [cp.connections <- c] *)
Definition send_connections (c : Client) (parked : bool) : M unit :=
  fun s =>
    match chansend (connections (pool s)) c parked with
    | SendQueued ch => (Ret tt, set_connections ch s)
    | SendHandoff => (Ret tt, s)
    | SendBlock => (Block, s)
    | SendPanic => (Panic send_on_closed, s)
    end.

(** [cp.createsem <- true].  A receiver is parked on [createsem] only
    while its buffer is empty, where the send has room: its delivery is
    the enqueue here followed by that receiver's own receive. *)
Definition send_createsem : M unit :=
  fun s =>
    match chansend (createsem (pool s)) true false with
    | SendQueued ch => (Ret tt, set_createsem ch s)
    | SendHandoff => (Ret tt, s)
    | SendBlock => (Block, s)
    | SendPanic => (Panic send_on_closed, s)
    end.

(** [<-cp.createsem] *)
Definition recv_createsem : M unit :=
  fun s =>
    match chanrecv (createsem (pool s)) with
    | RecvValue _ ch => (Ret tt, set_createsem ch s)
    | RecvClosed => (Ret tt, s)
    | RecvBlock => (Block, s)
    end.

(** [close(cp.connections)] *)
Definition close_connections : M unit :=
  fun s =>
    match closechan (connections (pool s)) with
    | Some ch => (Ret tt, set_connections ch s)
    | None => (Panic close_of_closed, s)
    end.

(** [c.Close()] and [c.IsHealthy()] *)
Definition conn_Close (c : Client) : M unit := emit [EvClose c].

Definition conn_IsHealthy (e : Env) (c : Client) : M bool :=
  emit [EvIsHealthy c] ;; ret (IsHealthy e c).

(** [cp.mkConn(cp.host, cp.auth)] *)
Definition call_mkConn (e : Env) : M (option Client * option error) :=
  fun s =>
    let '(r, evs) := mkConn (pool s) (host (pool s)) (auth (pool s)) (net e) in
    (Ret r, add_trace (EvMkConn (host (pool s)) :: evs) s).

(** [mc.StartTapFeed( *args )] *)
Definition conn_StartTapFeed (e : Env) (mc : option Client)
    (args : option TapArguments) : M (option TapFeed * option error) :=
  match args with
  | None => panic nil_dereference
  | Some a =>
      match mc with
      | None => panic nil_dereference
      | Some c => emit [EvStartTapFeed c a] ;; ret (startTapFeed e c a)
      end
  end.

(** ** Construction *)

Definition defaultMkConn : Factory :=
  fun host ah n =>
    match Connect n "tcp" host with
    | inr err => ((None, Some err), [EvConnect "tcp" host])
    | inl conn =>
        let '(name, pass) := GetCredentials ah in
        if String.eqb name "default" then
          ((Some conn, None), [EvConnect "tcp" host])
        else
          match Auth n conn name pass with
          | Some err =>
              ((None, Some err),
               [EvConnect "tcp" host; EvAuth conn name; EvClose conn])
          | None =>
              ((Some conn, None), [EvConnect "tcp" host; EvAuth conn name])
          end
    end.

(** [make] panics on a negative size: [None]. *)
Definition newConnectionPool (host : string) (ah : AuthHandler)
    (poolSize poolOverflow : Z) : option connectionPool :=
  match make_chan Client poolSize with
  | None => None
  | Some conns =>
      match make_chan bool (wrap64 (poolSize + poolOverflow)) with
      | None => None
      | Some sem =>
          Some {| host := host; connections := conns; createsem := sem;
                  mkConn := defaultMkConn; auth := ah |}
      end
  end.

Definition init_store (p : connectionPool) : store :=
  {| pool := p; ConnPoolTimeout := ConnPoolTimeout_default; trace := [] |}.

(** ** Methods *)

(** [for c := range cp.connections { body }], unrolled at most [fuel]
    times. *)
Fixpoint range_connections (fuel : nat) (body : Client -> M unit) : M unit :=
  match fuel with
  | O => block
  | S fuel' =>
      r <- recv_connections ;;
      match r with
      | (Some c, true) => body c ;; range_connections fuel' body
      | _ => ret tt
      end
  end.

(** [defer func() { err, _ = recover().(error) }()] *)
Definition recover_into_err (body : M unit) : M (option error) :=
  fun s =>
    match body s with
    | (Ret _, s') => (Ret None, s')
    | (Block, s') => (Block, s')
    | (Panic v, s') => (Ret (Some v), s')
    end.

Definition Close (cp : poolref) : M (option error) :=
  recover_into_err
    (match cp with
     | nilPool => panic nil_dereference
     | thePool =>
         close_connections ;;
         (fun s =>
            range_connections (S (List.length (buf (connections (pool s)))))
              conn_Close s)
     end).

Inductive fast_case := FastRecv | FastTimer.
Inductive slow_case := SlowRecv | SlowCreate | SlowTimeout.

(** The body shared by the two receive cases of [GetWithTimeout]. *)
Definition received (r : option Client * bool)
  : M (option Client * option error) :=
  let '(rv, isopen) := r in
  if negb isopen then ret (None, Some closedPool) else ret (rv, None).

(** Which communication each [select] of [GetWithTimeout] takes. *)
Definition fast_choice (e : Env) (s : store) : option fast_case :=
  select [(FastRecv, recv_ready (connections (pool s)));
          (FastTimer, (Millisecond <=? elapsed1 e)%Z)] (rnd1 e).

Definition slow_choice (d : Duration) (e : Env) (s : store)
  : option slow_case :=
  select [(SlowRecv, recv_ready (connections (pool s)));
          (SlowCreate, send_ready (createsem (pool s)) false);
          (SlowTimeout, (d <=? elapsed2 e)%Z)] (rnd2 e).

Definition GetWithTimeout (cp : poolref) (d : Duration) (e : Env)
  : M (option Client * option error) :=
  match cp with
  | nilPool => ret (None, Some (errors_New "no pool"))
  | thePool =>
      fun s =>
        match fast_choice e s with
        | None => (Block, s)
        | Some FastRecv => (r <- recv_connections ;; received r) s
        | Some FastTimer =>
            match slow_choice d e s with
            | None => (Block, s)
            | Some SlowRecv => (r <- recv_connections ;; received r) s
            | Some SlowCreate =>
                (send_createsem ;;
                 r <- call_mkConn e ;;
                 match snd r with
                 | Some _ => recv_createsem ;; ret r
                 | None => ret r
                 end) s
            | Some SlowTimeout => (Ret (None, Some TimeoutError), s)
            end
        end
  end.

Definition Get (cp : poolref) (e : Env) : M (option Client * option error) :=
  fun s => GetWithTimeout cp (ConnPoolTimeout s) e s.

(** [defer func() { if recover() != nil { c.Close() } }()] *)
Definition recover_and_close (c : Client) (body : M unit) : M unit :=
  fun s =>
    match body s with
    | (Panic _, s') => conn_Close c s'
    | r => r
    end.

Inductive return_case := ReturnSend.

Definition Return (cp : poolref) (c : option Client) (e : Env) : M unit :=
  match cp, c with
  | thePool, Some c =>
      h <- conn_IsHealthy e c ;;
      if h then
        recover_and_close c
          (fun s =>
             match select [(ReturnSend,
                            send_ready (connections (pool s)) (recv_parked e))]
                          0 with
             | Some ReturnSend => send_connections c (recv_parked e) s
             | None => (recv_createsem ;; conn_Close c) s
             end)
      else
        recv_createsem ;; conn_Close c
  | _, _ => ret tt
  end.

(** The part of [StartTapFeed] after a successful [cp.Get()]. *)
Definition detach (mc : option Client) (args : option TapArguments) (e : Env)
  : M (option TapFeed * option error) :=
  recv_createsem ;; conn_StartTapFeed e mc args.

Definition StartTapFeed (cp : poolref) (args : option TapArguments) (e : Env)
  : M (option TapFeed * option error) :=
  match cp with
  | nilPool => ret (None, Some (errors_New "no pool"))
  | thePool =>
      r <- Get cp e ;;
      match snd r with
      | Some err => ret (None, Some err)
      | None => detach (fst r) args e
      end
  end.

(** ** The pool in use

    Callers hold the connections they acquired ([checkedOut]);
    [detaching] holds those acquired by a [StartTapFeed] that has not
    yet released their slot.  A caller returns only a connection it
    holds. *)

Record System := {
  st : store;
  checkedOut : list Client;
  detaching : list Client
}.

Fixpoint remove1 (c : Client) (l : list Client) : list Client :=
  match l with
  | [] => []
  | x :: r => if Nat.eqb c x then r else x :: remove1 c r
  end.

Definition live (S : System) : nat :=
  List.length (queued (st S)) + List.length (checkedOut S)
  + List.length (detaching S).

Definition acquired (o : outcome (option Client * option error))
  : list Client :=
  match o with
  | Ret (Some c, None) => [c]
  | _ => []
  end.

(** The returned connection went straight to a parked acquirer, who
    holds it now. *)
Definition handed_off (e : Env) (c : Client) (s : store) : bool :=
  IsHealthy e c && negb (closed (connections (pool s))) && recv_parked e.

Definition set_mkConn (f : Factory) (s : store) : store :=
  {| pool := {| host := host (pool s); mkConn := f;
                auth := auth (pool s); connections := connections (pool s);
                createsem := createsem (pool s) |};
     ConnPoolTimeout := ConnPoolTimeout s; trace := trace s |}.

Definition set_ConnPoolTimeout (d : Duration) (s : store) : store :=
  {| pool := pool s; ConnPoolTimeout := d; trace := trace s |}.

Inductive step : System -> System -> Prop :=
| step_GetWithTimeout S d e o s' :
    GetWithTimeout thePool d e (st S) = (o, s') ->
    step S {| st := s'; checkedOut := acquired o ++ checkedOut S;
              detaching := detaching S |}
| step_Return S c e s' :
    In c (checkedOut S) ->
    Return thePool (Some c) e (st S) = (Ret tt, s') ->
    step S {| st := s';
              checkedOut := if handed_off e c (st S) then checkedOut S
                            else remove1 c (checkedOut S);
              detaching := detaching S |}
| step_StartTapFeed_Get S e o s' :
    Get thePool e (st S) = (o, s') ->
    step S {| st := s'; checkedOut := checkedOut S;
              detaching := acquired o ++ detaching S |}
| step_StartTapFeed_detach S c args e o s' :
    In c (detaching S) ->
    detach (Some c) args e (st S) = (o, s') ->
    o <> Block ->
    step S {| st := s'; checkedOut := checkedOut S;
              detaching := remove1 c (detaching S) |}
| step_Close S o s' :
    Close thePool (st S) = (o, s') ->
    step S {| st := s'; checkedOut := checkedOut S;
              detaching := detaching S |}
| step_set_mkConn S f :
    step S {| st := set_mkConn f (st S); checkedOut := checkedOut S;
              detaching := detaching S |}
| step_set_ConnPoolTimeout S d :
    step S {| st := set_ConnPoolTimeout d (st S); checkedOut := checkedOut S;
              detaching := detaching S |}.

Inductive reachable (S0 : System) : System -> Prop :=
| reach_init : reachable S0 S0
| reach_step S S' : reachable S0 S -> step S S' -> reachable S0 S'.

Definition initial (p : connectionPool) : System :=
  {| st := init_store p; checkedOut := []; detaching := [] |}.

(** ** Sample collaborators *)

Definition net_up (c : Client) : Net :=
  {| Connect := fun _ _ => inl c; Auth := fun _ _ _ => None |}.

Definition net_down : Net :=
  {| Connect := fun _ _ => inr "connection refused"%string;
     Auth := fun _ _ _ => None |}.

Definition anonymous : AuthHandler :=
  {| GetCredentials := ("default"%string, EmptyString) |}.

(** An environment in which [elapsed1] and [elapsed2] have the given
    values, both [select]s draw [rnd], the network is [n], every
    connection reports [healthy] and the feed starts. *)
Definition env (t1 t2 : Duration) (rnd : nat) (n : Net) (healthy parked : bool)
  : Env :=
  {| elapsed1 := t1; rnd1 := rnd; elapsed2 := t2; rnd2 := rnd; net := n;
     IsHealthy := fun _ => healthy; recv_parked := parked;
     startTapFeed := fun c _ => (Some {| feed_of := c |}, None) |}.

(** Run a computation for its store. *)
Definition exec (A : Type) (m : M A) (s : store) : store := snd (m s).
Definition result (A : Type) (m : M A) (s : store) : outcome A := fst (m s).

(** ** Stores and outcomes named in the statements *)

(** What the factory returns, and the calls it makes, if called now. *)
Definition built (e : Env) (s : store)
  : (option Client * option error) * list event :=
  mkConn (pool s) (host (pool s)) (auth (pool s)) (net e).

(** The store after [<-cp.createsem; c.Close()] took the token at the
    head of the buffer. *)
Definition retired (c : Client) (s : store) : store :=
  add_trace [EvClose c]
    (set_createsem {| buf := tl (buf (createsem (pool s)));
                      cap := capacity_of s;
                      closed := closed (createsem (pool s)) |} s).

Definition enqueued (c : Client) (s : store) : store :=
  set_connections {| buf := queued s ++ [c]; cap := poolSize_of s;
                     closed := is_closed s |} s.

Definition checked (c : Client) (s : store) : store :=
  add_trace [EvIsHealthy c] s.

(** The store after the ready-queue was closed and drained. *)
Definition closed_down (s : store) : store :=
  add_trace (map EvClose (queued s))
    (set_connections {| buf := []; cap := poolSize_of s; closed := true |} s).

Definition dequeued (s : store) : store :=
  set_connections {| buf := tl (queued s); cap := poolSize_of s;
                     closed := is_closed s |} s.

Inductive Get_outcome (d : Duration) (e : Env) (s : store)
  : outcome (option Client * option error) -> store -> Prop :=
| got_parked :
    Get_outcome d e s Block s
| got_closed :
    is_closed s = true -> queued s = [] ->
    Get_outcome d e s (Ret (None, Some closedPool)) s
| got_idle c rest :
    queued s = c :: rest ->
    Get_outcome d e s (Ret (Some c, None)) (dequeued s)
| got_timeout :
    (Millisecond <= elapsed1 e)%Z -> (d <= elapsed2 e)%Z ->
    Get_outcome d e s (Ret (None, Some TimeoutError)) s
| got_built s' :
    tokens s < capacity_of s ->
    tokens s' = match snd (fst (built e s)) with
                | Some _ => tokens s
                | None => S (tokens s)
                end ->
    connections (pool s') = connections (pool s) ->
    capacity_of s' = capacity_of s ->
    closed (createsem (pool s')) = false ->
    trace s' = trace s ++ EvMkConn (host (pool s)) :: snd (built e s) ->
    Get_outcome d e s (Ret (fst (built e s))) s'.

Definition detach_result (e : Env) (mc : option Client)
    (args : option TapArguments) : outcome (option TapFeed * option error) :=
  match args, mc with
  | Some a, Some c => Ret (startTapFeed e c a)
  | _, _ => Panic nil_dereference
  end.

Definition released (s : store) : store :=
  set_createsem {| buf := tl (buf (createsem (pool s)));
                   cap := capacity_of s;
                   closed := closed (createsem (pool s)) |} s.

Definition detached (mc : option Client) (args : option TapArguments)
    (s : store) : store :=
  match args, mc with
  | Some a, Some c => add_trace [EvStartTapFeed c a] (released s)
  | _, _ => released s
  end.

(** ** The accounting invariant *)

Record pool_inv (qcap scap : nat) (S : System) : Prop := {
  inv_poolSize : poolSize_of (st S) = qcap;
  inv_capacity : capacity_of (st S) = scap;
  inv_sem_open : closed (createsem (pool (st S))) = false;
  inv_queue : List.length (queued (st S)) <= qcap;
  inv_tokens : tokens (st S) <= scap;
  inv_live : live S <= tokens (st S)
}.

(** ** Running the pool

    The steps of [step] as functions, to run scenarios. *)

Definition do_GetWithTimeout (d : Duration) (e : Env) (S : System) : System :=
  {| st := exec (GetWithTimeout thePool d e) (st S);
     checkedOut := acquired (result (GetWithTimeout thePool d e) (st S))
                   ++ checkedOut S;
     detaching := detaching S |}.

Definition do_Return (c : Client) (e : Env) (S : System) : System :=
  {| st := exec (Return thePool (Some c) e) (st S);
     checkedOut := if handed_off e c (st S) then checkedOut S
                   else remove1 c (checkedOut S);
     detaching := detaching S |}.

Definition do_Close (S : System) : System :=
  {| st := exec (Close thePool) (st S); checkedOut := checkedOut S;
     detaching := detaching S |}.

Definition do_tap_Get (e : Env) (S : System) : System :=
  {| st := exec (Get thePool e) (st S); checkedOut := checkedOut S;
     detaching := acquired (result (Get thePool e) (st S)) ++ detaching S |}.

Definition do_tap_detach (c : Client) (args : option TapArguments) (e : Env)
    (S : System) : System :=
  {| st := exec (detach (Some c) args e) (st S); checkedOut := checkedOut S;
     detaching := remove1 c (detaching S) |}.

(** ** Sample pools and environments *)

(** A pool of two pooled and one overflow connection. *)
Definition pool_2_1 : connectionPool :=
  {| host := "cb1:11210"%string; mkConn := defaultMkConn; auth := anonymous;
     connections := {| buf := []; cap := 2; closed := false |};
     createsem := {| buf := []; cap := 3; closed := false |} |}.

(** The grace period has elapsed and nothing is idle: connection [c] is
    built. *)
Definition env_build (c : Client) : Env :=
  env Millisecond 0%Z 0 (net_up c) true false.

(** A prompt caller: the grace timer has not fired. *)
Definition env_prompt (healthy : bool) : Env :=
  env 0%Z 0%Z 0 net_down healthy false.

(** One connection built and held by a caller. *)
Definition one_out : System :=
  do_GetWithTimeout 10%Z (env_build 1) (initial pool_2_1).

(** Three connections built and held: the capacity is used up. *)
Definition three_out : System :=
  do_GetWithTimeout 10%Z (env_build 3)
    (do_GetWithTimeout 10%Z (env_build 2) one_out).

(** A caller that has waited [t] in the slow path, with idle
    connections gone and the network unused. *)
Definition env_waited (t : Duration) : Env :=
  env Millisecond t 0 net_down true false.

(** The factory fails: the network is down. *)
Definition env_net_down : Env := env Millisecond 0%Z 0 net_down true false.

(** Connection 7 is idle in the queue; it has gone bad meanwhile. *)
Definition idle_7 : store :=
  set_connections {| buf := [7]; cap := 2; closed := false |}
    (set_createsem {| buf := [true]; cap := 3; closed := false |}
       (init_store pool_2_1)).

(** The feed cannot be started. *)
Definition env_feed_refused : Env :=
  {| elapsed1 := 0%Z; rnd1 := 0; elapsed2 := 0%Z; rnd2 := 0; net := net_down;
     IsHealthy := fun _ => true; recv_parked := false;
     startTapFeed := fun _ _ => (None, Some "tap refused"%string) |}.

(** The pool was closed while a caller still holds connection 1. *)
Definition closed_one_out : System := do_Close one_out.

(** A pool without ready-queue places, its one connection built. *)
Definition pool_0_1 : connectionPool :=
  {| host := "cb1:11210"%string; mkConn := defaultMkConn; auth := anonymous;
     connections := {| buf := []; cap := 0; closed := false |};
     createsem := {| buf := [true]; cap := 1; closed := false |} |}.

(** The grace timer fired before the first [select] ran, and both
    [select]s drew their second ready communication. *)
Definition env_late (c : Client) : Env :=
  env Millisecond 0%Z 1 (net_up c) true false.

(** A network that connects client [c] and refuses its credentials. *)
Definition net_auth_refused (c : Client) : Net :=
  {| Connect := fun _ _ => inl c;
     Auth := fun _ _ _ => Some "auth failure"%string |}.

Definition bucket_user : AuthHandler :=
  {| GetCredentials := ("beer-sample"%string, "secret"%string) |}.

(** * Properties *)

(** ** [select] *)

Lemma select_In (C : Type) (cases : list (C * bool)) (rnd : nat) (c : C) :
  select cases rnd = Some c -> In (c, true) cases.
Proof.
  unfold select, ready_cases. intros H.
  apply nth_error_In in H.
  apply in_map_iff in H as [[c' b] [Hc Hin]].
  simpl in Hc. subst c'.
  apply filter_In in Hin as [Hin Hb].
  simpl in Hb. subst b. exact Hin.
Qed.

Lemma select_None (C : Type) (cases : list (C * bool)) (rnd : nat) :
  select cases rnd = None -> forall c, ~ In (c, true) cases.
Proof.
  unfold select, ready_cases. intros H c Hin.
  apply nth_error_None in H.
  assert (Hc : In c (map fst (filter snd cases))).
  { apply in_map_iff. exists (c, true). split; [reflexivity|].
    apply filter_In. split; [exact Hin | reflexivity]. }
  destruct (map fst (filter snd cases)) as [|x r]; [contradiction|].
  pose proof (Nat.mod_upper_bound rnd (List.length (x :: r))) as Hlt.
  simpl in *. lia.
Qed.

Lemma select_single (C : Type) (c : C) (b : bool) (rnd : nat) :
  select [(c, b)] rnd = if b then Some c else None.
Proof.
  unfold select, ready_cases. destruct b; cbn [filter snd map fst List.length].
  - rewrite Nat.mod_1_r. reflexivity.
  - destruct (rnd mod 0); reflexivity.
Qed.

Lemma fast_choice_recv e s :
  fast_choice e s = Some FastRecv -> recv_ready (connections (pool s)) = true.
Proof.
  intros H. apply select_In in H. simpl in H.
  destruct H as [H | [H | []]]; inversion H; reflexivity.
Qed.

Lemma slow_choice_recv d e s :
  slow_choice d e s = Some SlowRecv -> recv_ready (connections (pool s)) = true.
Proof.
  intros H. apply select_In in H. simpl in H.
  destruct H as [H | [H | [H | []]]]; inversion H; reflexivity.
Qed.

Lemma slow_choice_create d e s :
  slow_choice d e s = Some SlowCreate ->
  send_ready (createsem (pool s)) false = true.
Proof.
  intros H. apply select_In in H. simpl in H.
  destruct H as [H | [H | [H | []]]]; inversion H; reflexivity.
Qed.

Lemma slow_choice_timeout d e s :
  slow_choice d e s = Some SlowTimeout -> (d <= elapsed2 e)%Z.
Proof.
  intros H. apply select_In in H. simpl in H.
  destruct H as [H | [H | [H | []]]]; inversion H as [Hd].
  apply Z.leb_le. rewrite <- Hd. reflexivity.
Qed.

(** ** The steps of the methods *)

(** Receiving from the ready-queue when the receive can proceed. *)
Lemma received_from_queue s :
  recv_ready (connections (pool s)) = true ->
  (r <- recv_connections ;; received r) s =
  match queued s with
  | c :: rest =>
      (Ret (Some c, None),
       set_connections {| buf := rest; cap := poolSize_of s;
                          closed := is_closed s |} s)
  | [] => (Ret (None, Some closedPool), s)
  end.
Proof.
  unfold recv_ready, bind, recv_connections, chanrecv, queued, poolSize_of,
    is_closed.
  destruct (buf (connections (pool s))) as [|c rest]; intros H.
  - rewrite H. reflexivity.
  - reflexivity.
Qed.

Lemma create_branch e s :
  closed (createsem (pool s)) = false ->
  send_ready (createsem (pool s)) false = true ->
  exists s',
    (send_createsem ;;
     r <- call_mkConn e ;;
     match snd r with
     | Some _ => recv_createsem ;; ret r
     | None => ret r
     end) s = (Ret (fst (built e s)), s')
    /\ tokens s < capacity_of s
    /\ tokens s' = match snd (fst (built e s)) with
                   | Some _ => tokens s
                   | None => S (tokens s)
                   end
    /\ connections (pool s') = connections (pool s)
    /\ capacity_of s' = capacity_of s
    /\ closed (createsem (pool s')) = false
    /\ mkConn (pool s') = mkConn (pool s)
    /\ ConnPoolTimeout s' = ConnPoolTimeout s
    /\ trace s' = trace s ++ EvMkConn (host (pool s)) :: snd (built e s).
Proof.
  unfold send_ready, built, tokens, capacity_of.
  intros Hopen Hready. rewrite Hopen in Hready. simpl in Hready.
  apply Nat.ltb_lt in Hready.
  unfold bind, send_createsem, chansend. rewrite Hopen.
  destruct (Nat.ltb_spec (List.length (buf (createsem (pool s))))
              (cap (createsem (pool s)))) as [_|Hge]; [|lia].
  unfold call_mkConn. simpl.
  destruct (mkConn (pool s) (host (pool s)) (auth (pool s)) (net e))
    as [[rv err] evs] eqn:Hmk.
  destruct err as [err|]; simpl.
  - unfold recv_createsem, chanrecv. simpl.
    destruct (buf (createsem (pool s))) as [|t ts] eqn:Hbuf; simpl;
      eexists; (split; [reflexivity|]); simpl; rewrite ?Hbuf; simpl;
      rewrite ?length_app; simpl; repeat split; auto; lia.
  - eexists; (split; [reflexivity|]); simpl.
    rewrite length_app. simpl. repeat split; auto; lia.
Qed.

(** ** [Return], branch by branch *)

Lemma retire_held c s :
  0 < tokens s ->
  (recv_createsem ;; conn_Close c) s = (Ret tt, retired c s).
Proof.
  unfold tokens, bind, recv_createsem, chanrecv, retired, capacity_of.
  destruct (buf (createsem (pool s))) as [|t ts]; simpl; intros H.
  - lia.
  - reflexivity.
Qed.

Lemma retire_empty c s :
  tokens s = 0 -> closed (createsem (pool s)) = false ->
  (recv_createsem ;; conn_Close c) s = (Block, s).
Proof.
  unfold tokens, bind, recv_createsem, chanrecv.
  destruct (buf (createsem (pool s))) as [|t ts]; simpl; intros H Hopen.
  - rewrite Hopen. reflexivity.
  - discriminate.
Qed.

Lemma Return_unhealthy s c e :
  IsHealthy e c = false ->
  Return thePool (Some c) e s = (recv_createsem ;; conn_Close c) (checked c s).
Proof.
  intros Hh. unfold Return, conn_IsHealthy, bind at 1 2, emit, ret.
  rewrite Hh. reflexivity.
Qed.

Lemma Return_closed s c e :
  IsHealthy e c = true -> is_closed s = true ->
  Return thePool (Some c) e s = (Ret tt, add_trace [EvClose c] (checked c s)).
Proof.
  unfold is_closed. intros Hh Hc.
  unfold Return, conn_IsHealthy, bind at 1 2, emit, ret. rewrite Hh.
  unfold recover_and_close. rewrite select_single.
  unfold send_ready, send_connections, chansend. simpl. rewrite Hc. simpl.
  reflexivity.
Qed.

Lemma Return_handoff s c e :
  IsHealthy e c = true -> is_closed s = false -> recv_parked e = true ->
  Return thePool (Some c) e s = (Ret tt, checked c s).
Proof.
  unfold is_closed. intros Hh Hc Hp.
  unfold Return, conn_IsHealthy, bind at 1 2, emit, ret. rewrite Hh.
  unfold recover_and_close. rewrite select_single.
  unfold send_ready, send_connections, chansend. simpl. rewrite Hc, Hp. simpl.
  reflexivity.
Qed.

Lemma Return_enqueue s c e :
  IsHealthy e c = true -> is_closed s = false -> recv_parked e = false ->
  List.length (queued s) < poolSize_of s ->
  Return thePool (Some c) e s = (Ret tt, enqueued c (checked c s)).
Proof.
  unfold is_closed, queued, poolSize_of. intros Hh Hc Hp Hroom.
  apply Nat.ltb_lt in Hroom.
  unfold Return, conn_IsHealthy, bind at 1 2, emit, ret. rewrite Hh.
  unfold recover_and_close. rewrite select_single.
  unfold send_ready, send_connections, chansend. simpl.
  rewrite Hc, Hp, Hroom. simpl.
  unfold enqueued, checked, is_closed, queued, poolSize_of. simpl.
  rewrite Hc. reflexivity.
Qed.

Lemma Return_overflow s c e :
  IsHealthy e c = true -> is_closed s = false -> recv_parked e = false ->
  poolSize_of s <= List.length (queued s) ->
  Return thePool (Some c) e s = (recv_createsem ;; conn_Close c) (checked c s).
Proof.
  unfold is_closed, queued, poolSize_of. intros Hh Hc Hp Hfull.
  apply Nat.ltb_ge in Hfull.
  unfold Return, conn_IsHealthy, bind at 1 2, emit, ret. rewrite Hh.
  unfold recover_and_close. rewrite select_single.
  unfold send_ready. simpl. rewrite Hc, Hp, Hfull. simpl.
  fold (checked c s).
  destruct ((recv_createsem;; conn_Close c) (checked c s))
    as [[[]| |v] s'] eqn:E; try reflexivity.
  exfalso. revert E.
  unfold bind, recv_createsem, conn_Close, emit.
  destruct (chanrecv (createsem (pool (checked c s))));
    simpl; intros E; discriminate E.
Qed.

(** ** [Close] *)

Lemma range_drains q : forall fuel s,
  queued s = q -> is_closed s = true -> List.length q < fuel ->
  range_connections fuel conn_Close s = (Ret tt, closed_down s).
Proof.
  induction q as [|c rest IH]; intros fuel s Hq Hc Hfuel;
    (destruct fuel as [|fuel]; [simpl in Hfuel; lia|]);
    unfold queued, is_closed in Hq, Hc; simpl;
    unfold bind at 1, recv_connections, chanrecv; rewrite Hq.
  - rewrite Hc. unfold ret, closed_down, queued, poolSize_of, add_trace,
      set_connections. rewrite Hq. simpl. rewrite app_nil_r.
    destruct s as [[h mk a [b k cl] sem] t tr]. simpl in *. subst. reflexivity.
  - unfold bind at 1, conn_Close, emit.
    rewrite IH.
    + f_equal. unfold closed_down, queued, poolSize_of, add_trace,
        set_connections. simpl. rewrite Hq. simpl.
      rewrite <- app_assoc. reflexivity.
    + reflexivity.
    + unfold is_closed. simpl. exact Hc.
    + simpl in Hfuel. lia.
Qed.

Lemma Close_open s :
  is_closed s = false ->
  Close thePool s = (Ret None, closed_down s).
Proof.
  unfold is_closed. intros Hc.
  unfold Close, recover_into_err, bind, close_connections, closechan.
  rewrite Hc. cbv beta iota.
  rewrite (@range_drains (queued s));
    [reflexivity | reflexivity | reflexivity | unfold queued; simpl; lia].
Qed.

Lemma Close_closed s :
  is_closed s = true ->
  Close thePool s = (Ret (Some close_of_closed), s).
Proof.
  unfold is_closed. intros Hc.
  unfold Close, recover_into_err, bind, close_connections, closechan.
  rewrite Hc. reflexivity.
Qed.

(** ** [GetWithTimeout], outcome by outcome *)

Lemma received_outcome d e s o s' :
  recv_ready (connections (pool s)) = true ->
  (r <- recv_connections ;; received r) s = (o, s') ->
  Get_outcome d e s o s'.
Proof.
  intros Hready H. rewrite (received_from_queue _ Hready) in H.
  destruct (queued s) as [|c rest] eqn:Hq.
  - inversion H; subst. apply got_closed; [|exact Hq].
    unfold recv_ready, queued, is_closed in *. rewrite Hq in Hready.
    exact Hready.
  - inversion H; subst.
    replace (set_connections _ s) with (dequeued s)
      by (unfold dequeued; rewrite Hq; reflexivity).
    eapply got_idle. exact Hq.
Qed.

Lemma GetWithTimeout_outcome d e s o s' :
  closed (createsem (pool s)) = false ->
  GetWithTimeout thePool d e s = (o, s') ->
  Get_outcome d e s o s'.
Proof.
  intros Hsem. unfold GetWithTimeout.
  destruct (fast_choice e s) as [[|]|] eqn:Hfast.
  - apply received_outcome. eapply fast_choice_recv; eauto.
  - destruct (slow_choice d e s) as [[| |]|] eqn:Hslow.
    + apply received_outcome. eapply slow_choice_recv; eauto.
    + intros H.
      destruct (create_branch e s Hsem (slow_choice_create _ _ _ Hslow))
        as (s1 & Heq & Hlt & Htok & Hconn & Hcap & Hopen & _ & _ & Htr).
      rewrite Heq in H. inversion H; subst.
      apply got_built; assumption.
    + intros H. inversion H; subst. apply got_timeout.
      * apply select_In in Hfast. simpl in Hfast.
        destruct Hfast as [Hf | [Hf | []]]; inversion Hf as [Ht].
        apply Z.leb_le. rewrite <- Ht. reflexivity.
      * eapply slow_choice_timeout; eauto.
    + intros H. inversion H; subst. apply got_parked.
  - intros H. inversion H; subst. apply got_parked.
Qed.

(** ** The detaching half of [StartTapFeed] *)

Lemma detach_held e mc args s :
  0 < tokens s ->
  detach mc args e s = (detach_result e mc args, detached mc args s).
Proof.
  unfold tokens, detach, bind, recv_createsem, chanrecv, detached, released,
    detach_result, capacity_of.
  destruct (buf (createsem (pool s))) as [|t ts]; simpl; intros H; [lia|].
  destruct args as [a|], mc as [c|]; reflexivity.
Qed.

Lemma detach_empty e mc args s :
  tokens s = 0 -> closed (createsem (pool s)) = false ->
  detach mc args e s = (Block, s).
Proof.
  unfold tokens, detach, bind, recv_createsem, chanrecv.
  destruct (buf (createsem (pool s))) as [|t ts]; simpl; intros H Hopen.
  - rewrite Hopen. reflexivity.
  - discriminate.
Qed.

(** ** The accounting invariant is kept by every step *)

Lemma remove1_length c l :
  In c l -> S (List.length (remove1 c l)) = List.length l.
Proof.
  induction l as [|x r IH]; simpl; intros H; [contradiction|].
  destruct (Nat.eqb_spec c x) as [->|Hne]; [reflexivity|].
  destruct H as [H|H]; [congruence|].
  simpl. rewrite IH by exact H. reflexivity.
Qed.

Lemma In_length_pos (c : Client) l : In c l -> 0 < List.length l.
Proof. destruct l; simpl; [contradiction | lia]. Qed.

Lemma tokens_retired c s : 0 < tokens s -> S (tokens (retired c s)) = tokens s.
Proof.
  unfold tokens, retired. simpl.
  destruct (buf (createsem (pool s))); simpl; lia.
Qed.

(** What one acquisition does to the accounting: the queue gives one
    connection away, or a token is taken for whatever was built. *)
Lemma Get_accounting d e s o s' :
  Get_outcome d e s o s' ->
  closed (createsem (pool s)) = false ->
  tokens s <= capacity_of s ->
  poolSize_of s' = poolSize_of s
  /\ capacity_of s' = capacity_of s
  /\ closed (createsem (pool s')) = false
  /\ List.length (queued s') <= List.length (queued s)
  /\ tokens s' <= capacity_of s
  /\ List.length (queued s') + List.length (acquired o) + tokens s
     <= List.length (queued s) + tokens s'.
Proof.
  intros H Hopen Htok.
  destruct H as [ | Hc Hq | c rest Hq | Ht1 Ht2
                | s' Hlt Htok' Hconn Hcap Hopen' Htr ].
  - simpl. repeat split; auto; lia.
  - simpl. repeat split; auto; lia.
  - unfold dequeued, poolSize_of, capacity_of, queued, tokens in *.
    simpl. rewrite Hq. simpl. repeat split; auto; lia.
  - simpl. repeat split; auto; lia.
  - unfold poolSize_of, queued in *. rewrite Hconn.
    destruct (fst (built e s)) as [[c|] [err|]]; simpl in *;
      repeat split; auto; lia.
Qed.

Create HintDb store discriminated.
#[local] Hint Unfold live tokens queued is_closed poolSize_of capacity_of
  checked retired released enqueued dequeued closed_down detached add_trace
  set_connections set_createsem set_mkConn set_ConnPoolTimeout : store.

Ltac store_simpl :=
  repeat progress autounfold with store in *; simpl in *.

Lemma pool_inv_step qcap scap S S' :
  pool_inv qcap scap S -> step S S' -> pool_inv qcap scap S'.
Proof.
  intros [Hq Hs Hopen Hqueue Htok Hlive] Hstep.
  destruct Hstep as [S d e o s' Hget | S c e s' Hin Hret | S e o s' Hget
                    | S c args e o s' Hin Hdet Hnb | S o s' Hclose
                    | S f | S d].
  - apply GetWithTimeout_outcome in Hget; [|exact Hopen].
    destruct (Get_accounting Hget Hopen) as (H1 & H2 & H3 & H4 & H5 & H6);
      [lia|].
    constructor; unfold live in *; simpl; rewrite ?length_app;
      try congruence; lia.
  - pose proof (In_length_pos _ _ Hin) as Hpos.
    pose proof (remove1_length _ _ Hin) as Hrem.
    assert (Hheld : 0 < tokens (checked c (st S)))
      by (store_simpl; lia).
    destruct (IsHealthy e c) eqn:Hh.
    + destruct (is_closed (st S)) eqn:Hc.
      * rewrite (Return_closed _ _ _ Hh Hc) in Hret. inversion Hret; subst s'.
        unfold handed_off. rewrite Hh. unfold is_closed in Hc. rewrite Hc.
        constructor; store_simpl; auto; lia.
      * destruct (recv_parked e) eqn:Hp.
        { rewrite (Return_handoff _ _ _ Hh Hc Hp) in Hret.
          inversion Hret; subst s'.
          unfold handed_off. rewrite Hh, Hp. unfold is_closed in Hc. rewrite Hc.
          constructor; store_simpl; auto. }
        destruct (Nat.lt_ge_cases (List.length (queued (st S)))
                    (poolSize_of (st S))) as [Hroom | Hfull].
        { rewrite (Return_enqueue _ _ _ Hh Hc Hp Hroom) in Hret.
          inversion Hret; subst s'.
          unfold handed_off. rewrite Hh, Hp. unfold is_closed in Hc. rewrite Hc.
          constructor; store_simpl; auto; rewrite ?length_app; simpl; lia. }
        rewrite (Return_overflow _ _ _ Hh Hc Hp Hfull) in Hret.
        rewrite retire_held in Hret by exact Hheld. inversion Hret; subst s'.
        unfold handed_off. rewrite Hh, Hp. unfold is_closed in Hc. rewrite Hc.
        constructor; store_simpl; auto;
          destruct (buf (createsem (pool (st S)))); simpl in *; lia.
    + rewrite (Return_unhealthy _ _ _ Hh) in Hret.
      rewrite retire_held in Hret by exact Hheld. inversion Hret; subst s'.
      unfold handed_off. rewrite Hh.
      constructor; store_simpl; auto;
        destruct (buf (createsem (pool (st S)))); simpl in *; lia.
  - unfold Get in Hget.
    apply GetWithTimeout_outcome in Hget; [|exact Hopen].
    destruct (Get_accounting Hget Hopen) as (H1 & H2 & H3 & H4 & H5 & H6);
      [lia|].
    constructor; unfold live in *; simpl; rewrite ?length_app;
      try congruence; lia.
  - pose proof (In_length_pos _ _ Hin) as Hpos.
    pose proof (remove1_length _ _ Hin) as Hrem.
    assert (Hheld : 0 < tokens (st S)) by (unfold live in *; lia).
    rewrite detach_held in Hdet by exact Hheld.
    inversion Hdet; subst s'.
    constructor; destruct args; store_simpl; auto;
      destruct (buf (createsem (pool (st S)))); simpl in *; lia.
  - destruct (is_closed (st S)) eqn:Hc.
    + rewrite (Close_closed _ Hc) in Hclose. inversion Hclose; subst s'.
      constructor; store_simpl; auto.
    + rewrite (Close_open _ Hc) in Hclose. inversion Hclose; subst s'.
      constructor; store_simpl; auto; lia.
  - constructor; store_simpl; auto.
  - constructor; store_simpl; auto.
Qed.

Lemma pool_inv_reachable qcap scap S0 S :
  pool_inv qcap scap S0 -> reachable S0 S -> pool_inv qcap scap S.
Proof.
  intros H0 Hreach. induction Hreach as [|S S' _ IH Hstep].
  - exact H0.
  - exact (pool_inv_step IH Hstep).
Qed.

(** ** Construction establishes the invariant *)

Lemma wrap64_nonneg_sum (a b : Z) :
  int64_range a -> int64_range b -> (0 <= a)%Z ->
  (0 <= wrap64 (a + b))%Z -> wrap64 (a + b) = (a + b)%Z.
Proof.
  unfold int64_range, wrap64. intros Ha Hb Ha0 Hw.
  destruct (Z_lt_ge_dec (a + b) (2 ^ 63)) as [Hlt | Hge].
  - rewrite Z.mod_small; lia.
  - exfalso.
    replace (a + b + 2 ^ 63)%Z with ((a + b - 2 ^ 63) + 1 * 2 ^ 64)%Z in Hw
      by lia.
    rewrite Z_mod_plus_full in Hw.
    rewrite Z.mod_small in Hw; lia.
Qed.

Lemma newConnectionPool_caps host ah poolSize poolOverflow p :
  int64_range poolSize -> int64_range poolOverflow ->
  newConnectionPool host ah poolSize poolOverflow = Some p ->
  (0 <= poolSize)%Z /\ (0 <= poolSize + poolOverflow)%Z
  /\ connections p = {| buf := []; cap := Z.to_nat poolSize; closed := false |}
  /\ createsem p = {| buf := []; cap := Z.to_nat (poolSize + poolOverflow);
                      closed := false |}.
Proof.
  intros Hs Ho. unfold newConnectionPool, make_chan.
  destruct (Z.ltb_spec poolSize 0) as [|Hs0]; [discriminate|].
  destruct (Z.ltb_spec (wrap64 (poolSize + poolOverflow)) 0) as [|Hw];
    [discriminate|].
  intros H. inversion H; subst p; simpl.
  pose proof (wrap64_nonneg_sum Hs Ho Hs0 Hw) as E.
  rewrite E in *.
  repeat split; auto; lia.
Qed.

Lemma pool_inv_initial host ah poolSize poolOverflow p :
  int64_range poolSize -> int64_range poolOverflow ->
  newConnectionPool host ah poolSize poolOverflow = Some p ->
  pool_inv (Z.to_nat poolSize) (Z.to_nat (poolSize + poolOverflow)) (initial p).
Proof.
  intros Hs Ho Hnew.
  destruct (newConnectionPool_caps _ _ Hs Ho Hnew) as (_ & _ & Hq & Hsem).
  constructor; store_simpl; rewrite ?Hq, ?Hsem; simpl; auto; lia.
Qed.

(** ** Scenario steps are steps *)

Lemma do_GetWithTimeout_step d e S : step S (do_GetWithTimeout d e S).
Proof.
  unfold do_GetWithTimeout, exec, result.
  apply step_GetWithTimeout with (d := d) (e := e).
  apply surjective_pairing.
Qed.

Lemma do_Return_step c e S :
  In c (checkedOut S) ->
  result (Return thePool (Some c) e) (st S) = Ret tt ->
  step S (do_Return c e S).
Proof.
  unfold do_Return, exec, result. intros Hin Hret.
  apply step_Return; [exact Hin|].
  rewrite <- Hret. apply surjective_pairing.
Qed.

Lemma do_Close_step S : step S (do_Close S).
Proof.
  unfold do_Close, exec.
  apply step_Close with (o := fst (Close thePool (st S))).
  apply surjective_pairing.
Qed.

Lemma do_tap_Get_step e S : step S (do_tap_Get e S).
Proof.
  unfold do_tap_Get, exec, result.
  apply step_StartTapFeed_Get with (e := e).
  apply surjective_pairing.
Qed.

Lemma do_tap_detach_step c args e S :
  In c (detaching S) ->
  result (detach (Some c) args e) (st S) <> Block ->
  step S (do_tap_detach c args e S).
Proof.
  unfold do_tap_detach, exec, result. intros Hin Hnb.
  apply step_StartTapFeed_detach
    with (args := args) (e := e) (o := fst (detach (Some c) args e (st S)));
    [exact Hin | apply surjective_pairing | exact Hnb].
Qed.

Example pool_2_1_constructed :
  newConnectionPool "cb1:11210" anonymous 2 1 = Some pool_2_1.
Proof. reflexivity. Qed.

Lemma int64_range_2 : int64_range 2.
Proof. unfold int64_range. simpl. lia. Qed.

Lemma int64_range_1 : int64_range 1.
Proof. unfold int64_range. simpl. lia. Qed.

Example one_out_state :
  checkedOut one_out = [1] /\ tokens (st one_out) = 1
  /\ queued (st one_out) = []
  /\ trace (st one_out) = [EvMkConn "cb1:11210"; EvConnect "tcp" "cb1:11210"].
Proof. repeat split. Qed.

Lemma one_out_reachable : reachable (initial pool_2_1) one_out.
Proof.
  eapply reach_step; [apply reach_init | apply do_GetWithTimeout_step].
Qed.

(** ** Scenarios

    Three acquisitions on an empty pool of size 2 and overflow 1 build
    three connections; a fourth waits, and times out after 10 ms. *)
Example three_out_state :
  checkedOut three_out = [3; 2; 1] /\ tokens (st three_out) = 3
  /\ queued (st three_out) = [].
Proof. repeat split. Qed.

Example fourth_waits :
  GetWithTimeout thePool 10000000%Z (env_waited 9999999%Z) (st three_out)
  = (Block, st three_out).
Proof. reflexivity. Qed.

Example fourth_times_out :
  GetWithTimeout thePool 10000000%Z (env_waited 10000000%Z) (st three_out)
  = (Ret (None, Some TimeoutError), st three_out).
Proof. reflexivity. Qed.

(** An unhealthy connection is closed on return and its slot is free. *)
Example unhealthy_return_frees_slot :
  let S := do_Return 1 (env_prompt false) one_out in
  tokens (st S) = 0 /\ queued (st S) = [] /\ checkedOut S = []
  /\ In (EvClose 1) (trace (st S)).
Proof. repeat split. simpl. auto. Qed.

(** With the queue full, one more healthy connection is retired. *)
Example overflow_return_retires :
  let S := do_Return 3 (env_prompt true)
             (do_Return 2 (env_prompt true)
                (do_Return 1 (env_prompt true) three_out)) in
  queued (st S) = [1; 2] /\ tokens (st S) = 2 /\ checkedOut S = []
  /\ In (EvClose 3) (trace (st S)).
Proof.
  repeat split. simpl. repeat (first [left; reflexivity | right]).
Qed.

(** A caller waiting with the capacity used up sees the pool close. *)
Example waiting_get_sees_close :
  GetWithTimeout thePool 10000000%Z (env_waited 0%Z) (st (do_Close three_out))
  = (Ret (None, Some closedPool), st (do_Close three_out)).
Proof. reflexivity. Qed.

(** A started feed holds no slot. *)
Example feed_holds_no_slot :
  let S := do_tap_detach 9 (Some {| tap_args := 0 |}) (env_build 9)
             (do_tap_Get (env_build 9) (initial pool_2_1)) in
  tokens (st S) = 0 /\ queued (st S) = [] /\ detaching S = []
  /\ ~ In (EvClose 9) (trace (st S)).
Proof.
  repeat split. simpl. intros [H | [H | [H | []]]]; discriminate H.
Qed.

(** ** The claims *)

(** C1.  For every sequence of acquire, Return and StartTapFeed
    operations (and Close) on a pool constructed with [poolSize] and
    [poolOverflow], the number of live connections -- idle in the
    ready-queue, checked out, or acquired by a StartTapFeed that has not
    yet released their slot -- never exceeds [poolSize + poolOverflow]. *)
Theorem C1_live_bounded host ah poolSize poolOverflow p S :
  int64_range poolSize -> int64_range poolOverflow ->
  newConnectionPool host ah poolSize poolOverflow = Some p ->
  reachable (initial p) S ->
  (Z.of_nat (live S) <= poolSize + poolOverflow)%Z.
Proof.
  intros Hs Ho Hnew Hreach.
  destruct (newConnectionPool_caps _ _ Hs Ho Hnew) as (_ & Hsum & _ & _).
  pose proof (pool_inv_reachable (pool_inv_initial _ _ Hs Ho Hnew) Hreach)
    as [_ _ _ _ Htok Hlive].
  lia.
Qed.

Lemma C1_live_bounded_witness : (Z.of_nat (live one_out) <= 2 + 1)%Z.
Proof.
  apply (@C1_live_bounded "cb1:11210"%string anonymous 2 1 pool_2_1 one_out).
  - exact int64_range_2.
  - exact int64_range_1.
  - reflexivity.
  - exact one_out_reachable.
Defined.

(** C7.  [GetWithTimeout], [Get] and [StartTapFeed] on a nil pool
    return at once the error "no pool", distinct from [TimeoutError] and
    [closedPool], whatever the environment and without touching the
    store; [Return] with a nil pool or a nil connection returns at once
    and changes nothing. *)
Theorem C7_nil_pool (d : Duration) (e : Env) (args : option TapArguments)
    (c : option Client) (cp : poolref) (s : store) :
  GetWithTimeout nilPool d e s = (Ret (None, Some (errors_New "no pool")), s)
  /\ Get nilPool e s = (Ret (None, Some (errors_New "no pool")), s)
  /\ StartTapFeed nilPool args e s
     = (Ret (None, Some (errors_New "no pool")), s)
  /\ errors_New "no pool" <> TimeoutError
  /\ errors_New "no pool" <> closedPool
  /\ Return nilPool c e s = (Ret tt, s)
  /\ Return cp None e s = (Ret tt, s).
Proof.
  repeat split; try reflexivity; try discriminate.
  destruct cp; reflexivity.
Qed.

(** C3.  In the slow path of [GetWithTimeout], when the [select] takes
    the capacity slot, the factory is called and its pair of results is
    returned unchanged; when the factory returned an error the slot is
    given back (the token count is what it was), otherwise the token
    stays held (one more than before).  The ready-queue is untouched. *)
Theorem C3_create_branch (d : Duration) (e : Env) (s : store) :
  closed (createsem (pool s)) = false ->
  fast_choice e s = Some FastTimer ->
  slow_choice d e s = Some SlowCreate ->
  exists s',
    GetWithTimeout thePool d e s = (Ret (fst (built e s)), s')
    /\ trace s' = trace s ++ EvMkConn (host (pool s)) :: snd (built e s)
    /\ tokens s' = match snd (fst (built e s)) with
                   | Some _ => tokens s
                   | None => S (tokens s)
                   end
    /\ connections (pool s') = connections (pool s).
Proof.
  intros Hopen Hfast Hslow.
  destruct (create_branch e s Hopen (slow_choice_create _ _ _ Hslow))
    as (s' & Heq & _ & Htok & Hconn & _ & _ & _ & _ & Htr).
  exists s'. unfold GetWithTimeout. rewrite Hfast, Hslow.
  repeat split; assumption.
Qed.

Lemma C3_create_branch_witness :
  exists s',
    GetWithTimeout thePool 10%Z env_net_down (init_store pool_2_1)
    = (Ret (None, Some "connection refused"%string), s')
    /\ trace s' = [EvMkConn "cb1:11210"; EvConnect "tcp" "cb1:11210"]
    /\ tokens s' = 0
    /\ connections (pool s') = connections pool_2_1.
Proof.
  exact (@C3_create_branch 10%Z env_net_down (init_store pool_2_1)
           eq_refl eq_refl eq_refl).
Defined.

(** The only call [GetWithTimeout] makes is the factory's. *)
Lemma GetWithTimeout_trace cp d e s :
  trace (exec (GetWithTimeout cp d e) s) = trace s
  \/ trace (exec (GetWithTimeout cp d e) s)
     = trace s ++ EvMkConn (host (pool s)) :: snd (built e s).
Proof.
  unfold exec. destruct cp; [left; reflexivity|].
  assert (Hrecv : trace (snd ((r <- recv_connections ;; received r) s))
                  = trace s).
  { unfold bind, recv_connections.
    destruct (chanrecv (connections (pool s))); reflexivity. }
  unfold GetWithTimeout.
  destruct (fast_choice e s) as [[|]|]; auto.
  destruct (slow_choice d e s) as [[| |]|]; auto.
  unfold bind, send_createsem, chansend, call_mkConn, built, recv_createsem,
    chanrecv.
  destruct (closed (createsem (pool s))); simpl; auto.
  destruct (List.length (buf (createsem (pool s))) <? cap (createsem (pool s)));
    simpl; auto.
  destruct (mkConn (pool s) (host (pool s)) (auth (pool s)) (net e))
    as [[rv [err|]] evs]; simpl; auto.
  destruct (buf (createsem (pool s))); simpl; auto.
Qed.

(** C9.  A connection taken from the ready-queue, by the fast path or
    by the receive of the slow path, is returned as it is: the call
    leaves the trace unchanged, so no liveness check (nor any other
    call on the connection) is made, whatever the connection's health.
    [Return] is the method that asks [IsHealthy], first thing;
    [GetWithTimeout] calls nothing but the factory, and [Close] and the
    detaching half of [StartTapFeed] only add [Close] and [StartTapFeed]
    calls to the trace. *)
Theorem C9_no_check_on_acquire (d : Duration) (e : Env) (s : store)
    (c : Client) (rest : list Client) :
  queued s = c :: rest ->
  fast_choice e s = Some FastRecv
  \/ (fast_choice e s = Some FastTimer /\ slow_choice d e s = Some SlowRecv) ->
  GetWithTimeout thePool d e s = (Ret (Some c, None), dequeued s)
  /\ queued (dequeued s) = rest
  /\ trace (dequeued s) = trace s
  /\ (forall c' e' s', exists evs,
        trace (exec (Return thePool (Some c') e') s')
        = trace s' ++ EvIsHealthy c' :: evs)
  /\ (forall cp' d' e' s',
        trace (exec (GetWithTimeout cp' d' e') s') = trace s'
        \/ trace (exec (GetWithTimeout cp' d' e') s')
           = trace s' ++ EvMkConn (host (pool s')) :: snd (built e' s'))
  /\ (forall s', exists cs,
        trace (exec (Close thePool) s') = trace s' ++ map EvClose cs)
  /\ (forall mc a e' s',
        trace (exec (detach mc a e') s') = trace s'
        \/ exists c' a', trace (exec (detach mc a e') s')
                         = trace s' ++ [EvStartTapFeed c' a']).
Proof.
  intros Hq Hchoice.
  assert (Hready : recv_ready (connections (pool s)) = true).
  { unfold recv_ready. unfold queued in Hq. rewrite Hq. reflexivity. }
  split; [|split; [|split; [|split; [|split; [|split]]]]].
  - unfold GetWithTimeout.
    destruct Hchoice as [Hfast | [Hfast Hslow]]; rewrite Hfast, ?Hslow;
      rewrite (received_from_queue _ Hready); rewrite Hq;
      unfold dequeued; rewrite Hq; reflexivity.
  - unfold dequeued, queued in *. simpl. rewrite Hq. reflexivity.
  - reflexivity.
  - intros c' e' s'. unfold exec.
    destruct (IsHealthy e' c') eqn:Hh.
    + destruct (is_closed s') eqn:Hc.
      * rewrite (Return_closed _ _ _ Hh Hc). eexists. store_simpl.
        rewrite <- app_assoc. reflexivity.
      * destruct (recv_parked e') eqn:Hp.
        { rewrite (Return_handoff _ _ _ Hh Hc Hp). eexists. reflexivity. }
        destruct (Nat.lt_ge_cases (List.length (queued s')) (poolSize_of s'))
          as [Hroom | Hfull].
        { rewrite (Return_enqueue _ _ _ Hh Hc Hp Hroom). eexists.
          reflexivity. }
        rewrite (Return_overflow _ _ _ Hh Hc Hp Hfull).
        unfold bind, recv_createsem, conn_Close, emit.
        destruct (chanrecv (createsem (pool (checked c' s')))); eexists;
          store_simpl; rewrite <- ?app_assoc; reflexivity.
    + rewrite (Return_unhealthy _ _ _ Hh).
      unfold bind, recv_createsem, conn_Close, emit.
      destruct (chanrecv (createsem (pool (checked c' s')))); eexists;
        store_simpl; rewrite <- ?app_assoc; reflexivity.
  - intros cp' d' e' s'. apply GetWithTimeout_trace.
  - intros s'. unfold exec. destruct (is_closed s') eqn:Hc.
    + rewrite (Close_closed _ Hc). exists []. simpl.
      rewrite app_nil_r. reflexivity.
    + rewrite (Close_open _ Hc). exists (queued s'). reflexivity.
  - intros mc a e' s'. unfold exec, detach, bind, recv_createsem.
    destruct (chanrecv (createsem (pool s'))); simpl; auto;
      destruct a as [a|], mc as [c'|]; simpl; eauto.
Qed.

Lemma C9_no_check_on_acquire_witness :
  GetWithTimeout thePool 10%Z (env_prompt false) idle_7
  = (Ret (Some 7, None), dequeued idle_7)
  /\ trace (dequeued idle_7) = trace idle_7.
Proof.
  destruct (@C9_no_check_on_acquire 10%Z (env_prompt false) idle_7 7 []
              eq_refl (or_introl eq_refl)) as (H1 & _ & H3 & _).
  exact (conj H1 H3).
Defined.

(** ** [Return] and waiting *)

Lemma Return_cases s c e :
  Return thePool (Some c) e s = (Ret tt, add_trace [EvClose c] (checked c s))
  \/ Return thePool (Some c) e s = (Ret tt, checked c s)
  \/ Return thePool (Some c) e s = (Ret tt, enqueued c (checked c s))
  \/ Return thePool (Some c) e s
     = (recv_createsem ;; conn_Close c) (checked c s).
Proof.
  destruct (IsHealthy e c) eqn:Hh.
  - destruct (is_closed s) eqn:Hc.
    + left. apply Return_closed; assumption.
    + destruct (recv_parked e) eqn:Hp.
      * right; left. apply Return_handoff; assumption.
      * destruct (Nat.lt_ge_cases (List.length (queued s)) (poolSize_of s))
          as [Hroom | Hfull].
        { right; right; left. apply Return_enqueue; assumption. }
        right; right; right. apply Return_overflow; assumption.
  - right; right; right. apply Return_unhealthy; assumption.
Qed.

(** The only wait in [Return] is the receive of a token, and it waits
    only when no token is held at all. *)
Lemma Return_blocks_only_without_token cp c e s :
  result (Return cp c e) s = Block -> tokens s = 0.
Proof.
  unfold result. destruct cp, c as [c|]; try discriminate.
  destruct (Return_cases s c e) as [H | [H | [H | H]]]; rewrite H;
    try discriminate.
  destruct (Nat.eq_0_gt_0_cases (tokens s)) as [Hz | Hpos]; [auto|].
  rewrite retire_held by exact Hpos. discriminate.
Qed.

Lemma Return_never_panics cp c e s v :
  result (Return cp c e) s <> Panic v.
Proof.
  unfold result. destruct cp, c as [c|]; try discriminate.
  destruct (Return_cases s c e) as [H | [H | [H | H]]]; rewrite H;
    try discriminate.
  unfold bind, recv_createsem, conn_Close, emit.
  destruct (chanrecv (createsem (pool (checked c s)))); discriminate.
Qed.

(** A connection that is not healthy, given to [Return] while no token
    at all is held, leaves [Return] parked on [createsem]. *)
Lemma Return_unhealthy_waits s c e :
  IsHealthy e c = false -> tokens s = 0 ->
  closed (createsem (pool s)) = false ->
  Return thePool (Some c) e s = (Block, checked c s).
Proof.
  intros Hh Hz Hopen. rewrite (Return_unhealthy _ _ _ Hh).
  apply retire_empty; assumption.
Qed.

Lemma Return_completes s c e :
  0 < tokens s -> result (Return thePool (Some c) e) s = Ret tt.
Proof.
  intros Hpos.
  destruct (result (Return thePool (Some c) e) s) as [[]| |v] eqn:Hr.
  - reflexivity.
  - apply Return_blocks_only_without_token in Hr. lia.
  - exfalso. exact (Return_never_panics _ _ _ _ Hr).
Qed.

(** C8.  On a pool built by [newConnectionPool] and used through its
    methods, [Return] of a connection that a caller holds always
    completes, whatever the connection's health, whether the queue has
    room, is full or was closed, and whether an acquirer is parked on
    it: the insertion is a [select] with a [default], and the token
    receive of the retiring branches finds the token of the connection
    being returned. *)
Theorem C8_Return_completes host ah poolSize poolOverflow p S c e :
  int64_range poolSize -> int64_range poolOverflow ->
  newConnectionPool host ah poolSize poolOverflow = Some p ->
  reachable (initial p) S ->
  In c (checkedOut S) ->
  result (Return thePool (Some c) e) (st S) = Ret tt.
Proof.
  intros Hs Ho Hnew Hreach Hin.
  pose proof (pool_inv_reachable (pool_inv_initial _ _ Hs Ho Hnew) Hreach)
    as [_ _ _ _ _ Hlive].
  apply Return_completes.
  pose proof (In_length_pos _ _ Hin). unfold live in Hlive. lia.
Qed.

Lemma C8_Return_completes_witness :
  result (Return thePool (Some 1) (env_prompt false)) (st one_out) = Ret tt.
Proof.
  apply (@C8_Return_completes "cb1:11210"%string anonymous 2 1 pool_2_1
           one_out 1 (env_prompt false)).
  - exact int64_range_2.
  - exact int64_range_1.
  - reflexivity.
  - exact one_out_reachable.
  - simpl. left. reflexivity.
Defined.

(** ** [StartTapFeed] *)

Lemma Get_token_held e s mc s1 :
  closed (createsem (pool s)) = false ->
  List.length (queued s) <= tokens s ->
  Get thePool e s = (Ret (mc, None), s1) ->
  0 < tokens s1.
Proof.
  intros Hopen Hq Hget. unfold Get in Hget.
  apply GetWithTimeout_outcome in Hget; [|exact Hopen].
  inversion Hget as [ | | c rest Hqs | | s' Hlt Htok Hconn Hcap Hop Htr Hres ];
    subst.
  - rewrite Hqs in Hq. store_simpl. lia.
  - rewrite Hres in Htok. simpl in Htok. lia.
Qed.

Lemma Get_failure_tokens e s rv err s1 :
  closed (createsem (pool s)) = false ->
  Get thePool e s = (Ret (rv, Some err), s1) ->
  tokens s1 = tokens s /\ queued s1 = queued s.
Proof.
  intros Hopen Hget. unfold Get in Hget.
  apply GetWithTimeout_outcome in Hget; [|exact Hopen].
  inversion Hget as [ | | | | s' Hlt Htok Hconn Hcap Hop Htr Hres ]; subst;
    auto.
  rewrite Hres in Htok. simpl in Htok.
  unfold queued. rewrite Hconn. auto.
Qed.

Lemma StartTapFeed_after_Get args e s o s1 :
  Get thePool e s = (o, s1) ->
  StartTapFeed thePool args e s =
  match o with
  | Ret (mc, None) => detach mc args e s1
  | Ret (_, Some err) => (Ret (None, Some err), s1)
  | Block => (Block, s1)
  | Panic v => (Panic v, s1)
  end.
Proof.
  intros Hget. unfold StartTapFeed, bind. rewrite Hget.
  destruct o as [[mc [err|]]| |v]; reflexivity.
Qed.

Lemma detached_facts mc args s :
  0 < tokens s ->
  S (tokens (detached mc args s)) = tokens s
  /\ connections (pool (detached mc args s)) = connections (pool s)
  /\ trace (detached mc args s)
     = trace s ++ match args, mc with
                  | Some a, Some c => [EvStartTapFeed c a]
                  | _, _ => []
                  end.
Proof.
  intros Hpos.
  destruct args as [a|], mc as [c|]; store_simpl; rewrite ?app_nil_r;
    destruct (buf (createsem (pool s))); simpl in *; repeat split; lia.
Qed.

(** C6.  [StartTapFeed] acquires with [Get].  When [Get] returns a
    connection and no error, one token is taken out of [createsem]; the
    ready-queue is what [Get] left and the only call added to the trace
    is the connection's [StartTapFeed], so the connection is neither
    queued nor closed.  When [Get] returns an error, [StartTapFeed]
    returns that error with the store [Get] left, in which the token
    count is the one before the call. *)
Theorem C6_StartTapFeed_detaches args e s o s1 :
  closed (createsem (pool s)) = false ->
  List.length (queued s) <= tokens s ->
  Get thePool e s = (o, s1) ->
  match o with
  | Ret (mc, None) =>
      StartTapFeed thePool args e s
      = (detach_result e mc args, detached mc args s1)
      /\ S (tokens (detached mc args s1)) = tokens s1
      /\ connections (pool (detached mc args s1)) = connections (pool s1)
      /\ trace (detached mc args s1)
         = trace s1 ++ match args, mc with
                       | Some a, Some c => [EvStartTapFeed c a]
                       | _, _ => []
                       end
  | Ret (_, Some err) =>
      StartTapFeed thePool args e s = (Ret (None, Some err), s1)
      /\ tokens s1 = tokens s
  | Block => StartTapFeed thePool args e s = (Block, s1)
  | Panic v => StartTapFeed thePool args e s = (Panic v, s1)
  end.
Proof.
  intros Hopen Hq Hget.
  rewrite (@StartTapFeed_after_Get args e s o s1 Hget).
  destruct o as [[mc [err|]]| |v]; auto.
  - split; [reflexivity|].
    eapply proj1, Get_failure_tokens; eassumption.
  - assert (Hheld : 0 < tokens s1) by (eapply Get_token_held; eassumption).
    rewrite detach_held by exact Hheld.
    split; [reflexivity|]. apply detached_facts. exact Hheld.
Qed.

Lemma C6_StartTapFeed_detaches_witness :
  StartTapFeed thePool (Some {| tap_args := 0 |}) (env_prompt true) idle_7
  = (Ret (Some {| feed_of := 7 |}, None),
     detached (Some 7) (Some {| tap_args := 0 |}) (dequeued idle_7))
  /\ S (tokens (detached (Some 7) (Some {| tap_args := 0 |}) (dequeued idle_7)))
     = tokens (dequeued idle_7)
  /\ connections (pool (detached (Some 7) (Some {| tap_args := 0 |})
                          (dequeued idle_7)))
     = connections (pool (dequeued idle_7))
  /\ trace (detached (Some 7) (Some {| tap_args := 0 |}) (dequeued idle_7))
     = trace (dequeued idle_7) ++ [EvStartTapFeed 7 {| tap_args := 0 |}].
Proof.
  apply (@C6_StartTapFeed_detaches (Some {| tap_args := 0 |}) (env_prompt true)
           idle_7 (Ret (Some 7, None)) (dequeued idle_7)).
  - reflexivity.
  - unfold queued, tokens. simpl. lia.
  - reflexivity.
Defined.

(** C10.  In [StartTapFeed] the token is released after [Get] has
    succeeded and before the connection's [StartTapFeed] is called: the
    token is gone whatever becomes of that call, also when it is never
    made because dereferencing a nil [args] panics.  When the call
    returns an error, [StartTapFeed] returns the call's results as they
    are; the token is released, the ready-queue is what [Get] left and
    the trace has grown by the feed-start call alone, so the connection
    was neither closed nor queued. *)
Theorem C10_release_precedes_feed_start args e s mc s1 :
  closed (createsem (pool s)) = false ->
  List.length (queued s) <= tokens s ->
  Get thePool e s = (Ret (mc, None), s1) ->
  S (tokens (exec (StartTapFeed thePool args e) s)) = tokens s1
  /\ connections (pool (exec (StartTapFeed thePool args e) s))
     = connections (pool s1)
  /\ (args = None ->
      StartTapFeed thePool args e s = (Panic nil_dereference, released s1))
  /\ (forall c a f err,
        mc = Some c -> args = Some a ->
        startTapFeed e c a = (f, Some err) ->
        StartTapFeed thePool args e s
        = (Ret (f, Some err), add_trace [EvStartTapFeed c a] (released s1))
        /\ trace (add_trace [EvStartTapFeed c a] (released s1))
           = trace s1 ++ [EvStartTapFeed c a]).
Proof.
  intros Hopen Hq Hget.
  assert (Hheld : 0 < tokens s1) by (eapply Get_token_held; eassumption).
  assert (Hrun : StartTapFeed thePool args e s
                 = (detach_result e mc args, detached mc args s1)).
  { rewrite (@StartTapFeed_after_Get args e s _ s1 Hget).
    apply detach_held. exact Hheld. }
  destruct (@detached_facts mc args s1 Hheld) as (Htok & Hconn & _).
  unfold exec. rewrite Hrun. simpl.
  split; [exact Htok|]. split; [exact Hconn|]. split.
  - intros ->. destruct mc; reflexivity.
  - intros c a f err -> -> Hfeed. unfold detach_result, detached.
    rewrite Hfeed. split; reflexivity.
Qed.

Lemma C10_release_precedes_feed_start_witness :
  StartTapFeed thePool (Some {| tap_args := 0 |}) env_feed_refused idle_7
  = (Ret (None, Some "tap refused"%string),
     add_trace [EvStartTapFeed 7 {| tap_args := 0 |}]
       (released (dequeued idle_7)))
  /\ tokens (released (dequeued idle_7)) = 0
  /\ queued (released (dequeued idle_7)) = [].
Proof.
  destruct (@C10_release_precedes_feed_start (Some {| tap_args := 0 |})
              env_feed_refused idle_7 (Some 7) (dequeued idle_7)
              eq_refl (le_n 1) eq_refl) as (_ & _ & _ & H).
  destruct (H 7 {| tap_args := 0 |} None "tap refused"%string
              eq_refl eq_refl eq_refl) as [Hrun _].
  split; [exact Hrun | split; reflexivity].
Defined.

(** ** After [Close] *)

Example closed_one_out_state :
  is_closed (st closed_one_out) = true /\ queued (st closed_one_out) = []
  /\ tokens (st closed_one_out) = 1 /\ checkedOut closed_one_out = [1]
  /\ poolSize_of (st closed_one_out) = 2.
Proof. repeat split. Qed.

Lemma closed_one_out_reachable : reachable (initial pool_2_1) closed_one_out.
Proof.
  eapply reach_step; [exact one_out_reachable | apply do_Close_step].
Qed.

(** C2, as stated, fails: a healthy connection returned after the pool
    was closed is closed, yet its token stays in [createsem]; no live
    connection is left and one token is held for good. *)
Lemma C2_counterexample :
  let S := do_Return 1 (env_prompt true) closed_one_out in
  reachable (initial pool_2_1) S
  /\ trace (st S)
     = trace (st closed_one_out) ++ [EvIsHealthy 1; EvClose 1]
  /\ tokens (st closed_one_out) = 1
  /\ tokens (st S) = 1
  /\ live S = 0.
Proof.
  split; [|repeat split].
  eapply reach_step; [exact closed_one_out_reachable|].
  apply do_Return_step; [left; reflexivity | reflexivity].
Qed.

(** C2, amended.  The capacity slot on each path that fails to create or
    destroys a connection:
    - the factory fails in [GetWithTimeout]: the slot just taken is
      given back, the token count is unchanged;
    - [Return] retires an unhealthy connection, or a healthy one that
      finds the open queue full: exactly one slot is released;
    - [Return] of a healthy connection after the pool was closed: the
      connection is closed and no slot is released;
    - [Close]: every idle connection is closed and no slot is
      released. *)
Theorem C2_slot_accounting (d : Duration) (e : Env) (c : Client) (s : store) :
  (closed (createsem (pool s)) = false ->
   fast_choice e s = Some FastTimer -> slow_choice d e s = Some SlowCreate ->
   forall err, snd (fst (built e s)) = Some err ->
     result (GetWithTimeout thePool d e) s = Ret (fst (built e s))
     /\ tokens (exec (GetWithTimeout thePool d e) s) = tokens s)
  /\ (IsHealthy e c = false -> 0 < tokens s ->
      Return thePool (Some c) e s = (Ret tt, retired c (checked c s))
      /\ S (tokens (retired c (checked c s))) = tokens s)
  /\ (IsHealthy e c = true -> is_closed s = false -> recv_parked e = false ->
      poolSize_of s <= List.length (queued s) -> 0 < tokens s ->
      Return thePool (Some c) e s = (Ret tt, retired c (checked c s))
      /\ S (tokens (retired c (checked c s))) = tokens s)
  /\ (IsHealthy e c = true -> is_closed s = true ->
      Return thePool (Some c) e s
      = (Ret tt, add_trace [EvClose c] (checked c s))
      /\ tokens (add_trace [EvClose c] (checked c s)) = tokens s)
  /\ (is_closed s = false ->
      Close thePool s = (Ret None, closed_down s)
      /\ trace (closed_down s) = trace s ++ map EvClose (queued s)
      /\ tokens (closed_down s) = tokens s).
Proof.
  split; [|split; [|split; [|split]]].
  - intros Hopen Hfast Hslow err Herr.
    destruct (create_branch e s Hopen (slow_choice_create _ _ _ Hslow))
      as (s' & Heq & _ & Htok & _).
    unfold result, exec, GetWithTimeout. rewrite Hfast, Hslow, Heq.
    rewrite Herr in Htok. split; [reflexivity | exact Htok].
  - intros Hh Hpos.
    assert (Hheld : 0 < tokens (checked c s)) by exact Hpos.
    rewrite (Return_unhealthy _ _ _ Hh). rewrite retire_held by exact Hheld.
    split; [reflexivity | exact (@tokens_retired c (checked c s) Hheld)].
  - intros Hh Hc Hp Hfull Hpos.
    assert (Hheld : 0 < tokens (checked c s)) by exact Hpos.
    rewrite (Return_overflow _ _ _ Hh Hc Hp Hfull).
    rewrite retire_held by exact Hheld.
    split; [reflexivity | exact (@tokens_retired c (checked c s) Hheld)].
  - intros Hh Hc. rewrite (Return_closed _ _ _ Hh Hc).
    split; reflexivity.
  - intros Hc. rewrite (Close_open _ Hc). repeat split.
Qed.

Lemma C2_slot_accounting_witness :
  Return thePool (Some 1) (env_prompt true) (st closed_one_out)
  = (Ret tt, add_trace [EvClose 1] (checked 1 (st closed_one_out)))
  /\ tokens (add_trace [EvClose 1] (checked 1 (st closed_one_out)))
     = tokens (st closed_one_out).
Proof.
  destruct (C2_slot_accounting 10%Z (env_prompt true) 1 (st closed_one_out))
    as (_ & _ & _ & H & _).
  exact (H eq_refl eq_refl).
Defined.

(** C4, as stated, fails on a closed pool: the queue has room (none of
    its two places is taken) and the connection is healthy, yet it is
    not enqueued; it is closed. *)
Lemma C4_counterexample :
  let s := st closed_one_out in
  let s' := exec (Return thePool (Some 1) (env_prompt true)) s in
  IsHealthy (env_prompt true) 1 = true
  /\ List.length (queued s) < poolSize_of s
  /\ result (Return thePool (Some 1) (env_prompt true)) s = Ret tt
  /\ queued s' = []
  /\ trace s' = trace s ++ [EvIsHealthy 1; EvClose 1]
  /\ tokens s' = tokens s.
Proof. repeat split. unfold queued, poolSize_of. simpl. lia. Qed.

(** With [poolSize = 0] the queue always holds [poolSize] connections;
    a healthy connection returned while an acquirer is parked on the
    queue goes to that acquirer: it is not retired. *)
Example handoff_at_poolSize_0 :
  let e := env 0%Z 0%Z 0 net_down true true in
  List.length (queued (init_store pool_0_1)) = poolSize_of (init_store pool_0_1)
  /\ Return thePool (Some 1) e (init_store pool_0_1)
     = (Ret tt, checked 1 (init_store pool_0_1))
  /\ tokens (checked 1 (init_store pool_0_1)) = 1.
Proof. repeat split. Qed.

(** C4, amended.  What [Return] does with a connection [c], given that
    a token is held where one is to be released:
    - [c] is not healthy: one token is released and [c] is closed; the
      queue is untouched;
    - [c] is healthy, the pool is open, no acquirer is parked on the
      queue and the queue holds [poolSize] connections: one token is
      released and [c] is closed; the queue is untouched;
    - [c] is healthy, the pool is open, no acquirer is parked and the
      queue has room: [c] is enqueued last, no token is released and [c]
      is not closed;
    - [c] is healthy, the pool is open and an acquirer is parked on the
      queue: [c] goes to the acquirer; nothing is released, queued or
      closed;
    - [c] is healthy and the pool is closed: [c] is closed; nothing is
      released or queued.
    So a token is released in the first two cases and in no other. *)
Theorem C4_Return_policy (e : Env) (c : Client) (s : store) :
  (IsHealthy e c = false -> 0 < tokens s ->
   Return thePool (Some c) e s = (Ret tt, retired c (checked c s))
   /\ S (tokens (retired c (checked c s))) = tokens s
   /\ queued (retired c (checked c s)) = queued s
   /\ trace (retired c (checked c s)) = trace s ++ [EvIsHealthy c; EvClose c])
  /\ (IsHealthy e c = true -> is_closed s = false -> recv_parked e = false ->
      poolSize_of s <= List.length (queued s) -> 0 < tokens s ->
      Return thePool (Some c) e s = (Ret tt, retired c (checked c s))
      /\ S (tokens (retired c (checked c s))) = tokens s
      /\ queued (retired c (checked c s)) = queued s
      /\ trace (retired c (checked c s))
         = trace s ++ [EvIsHealthy c; EvClose c])
  /\ (IsHealthy e c = true -> is_closed s = false -> recv_parked e = false ->
      List.length (queued s) < poolSize_of s ->
      Return thePool (Some c) e s = (Ret tt, enqueued c (checked c s))
      /\ tokens (enqueued c (checked c s)) = tokens s
      /\ queued (enqueued c (checked c s)) = queued s ++ [c]
      /\ trace (enqueued c (checked c s)) = trace s ++ [EvIsHealthy c])
  /\ (IsHealthy e c = true -> is_closed s = false -> recv_parked e = true ->
      Return thePool (Some c) e s = (Ret tt, checked c s)
      /\ tokens (checked c s) = tokens s
      /\ queued (checked c s) = queued s
      /\ trace (checked c s) = trace s ++ [EvIsHealthy c])
  /\ (IsHealthy e c = true -> is_closed s = true ->
      Return thePool (Some c) e s
      = (Ret tt, add_trace [EvClose c] (checked c s))
      /\ tokens (add_trace [EvClose c] (checked c s)) = tokens s
      /\ queued (add_trace [EvClose c] (checked c s)) = queued s
      /\ trace (add_trace [EvClose c] (checked c s))
         = trace s ++ [EvIsHealthy c; EvClose c]).
Proof.
  assert (Hretired : 0 < tokens s ->
    S (tokens (retired c (checked c s))) = tokens s
    /\ queued (retired c (checked c s)) = queued s
    /\ trace (retired c (checked c s)) = trace s ++ [EvIsHealthy c; EvClose c]).
  { intros Hpos. split; [exact (@tokens_retired c (checked c s) Hpos)|].
    store_simpl. rewrite <- app_assoc. split; reflexivity. }
  split; [|split; [|split; [|split]]].
  - intros Hh Hpos.
    assert (Hheld : 0 < tokens (checked c s)) by exact Hpos.
    rewrite (Return_unhealthy _ _ _ Hh). rewrite retire_held by exact Hheld.
    split; [reflexivity | exact (Hretired Hpos)].
  - intros Hh Hc Hp Hfull Hpos.
    assert (Hheld : 0 < tokens (checked c s)) by exact Hpos.
    rewrite (Return_overflow _ _ _ Hh Hc Hp Hfull).
    rewrite retire_held by exact Hheld.
    split; [reflexivity | exact (Hretired Hpos)].
  - intros Hh Hc Hp Hroom. rewrite (Return_enqueue _ _ _ Hh Hc Hp Hroom).
    repeat split.
  - intros Hh Hc Hp. rewrite (Return_handoff _ _ _ Hh Hc Hp). repeat split.
  - intros Hh Hc. rewrite (Return_closed _ _ _ Hh Hc).
    split; [reflexivity|]. split; [reflexivity|]. split; [reflexivity|].
    store_simpl. rewrite <- app_assoc. reflexivity.
Qed.

Lemma C4_Return_policy_witness :
  Return thePool (Some 1) (env_prompt true) (st one_out)
  = (Ret tt, enqueued 1 (checked 1 (st one_out)))
  /\ tokens (enqueued 1 (checked 1 (st one_out))) = tokens (st one_out)
  /\ queued (enqueued 1 (checked 1 (st one_out))) = queued (st one_out) ++ [1]
  /\ trace (enqueued 1 (checked 1 (st one_out)))
     = trace (st one_out) ++ [EvIsHealthy 1].
Proof.
  destruct (C4_Return_policy (env_prompt true) 1 (st one_out))
    as (_ & _ & H & _).
  apply H; try reflexivity.
  unfold queued, poolSize_of. simpl. lia.
Defined.

(** ** [GetWithTimeout] on a closed pool *)

Lemma fast_choice_prompt e s :
  recv_ready (connections (pool s)) = true ->
  (elapsed1 e < Millisecond)%Z ->
  fast_choice e s = Some FastRecv.
Proof.
  intros Hready Hlt. unfold fast_choice, select, ready_cases.
  rewrite Hready. apply Z.leb_gt in Hlt. rewrite Hlt.
  cbn [filter snd map fst List.length]. rewrite Nat.mod_1_r. reflexivity.
Qed.

Lemma slow_choice_only_recv d e s :
  recv_ready (connections (pool s)) = true ->
  send_ready (createsem (pool s)) false = false ->
  (elapsed2 e < d)%Z ->
  slow_choice d e s = Some SlowRecv.
Proof.
  intros Hready Hsend Hlt. unfold slow_choice, select, ready_cases.
  rewrite Hready, Hsend. apply Z.leb_gt in Hlt. rewrite Hlt.
  cbn [filter snd map fst List.length]. rewrite Nat.mod_1_r. reflexivity.
Qed.

Lemma fast_choice_some e s :
  recv_ready (connections (pool s)) = true -> fast_choice e s <> None.
Proof.
  intros Hready Hnone. apply (select_None _ _ Hnone FastRecv).
  rewrite Hready. left. reflexivity.
Qed.

Lemma slow_choice_some d e s :
  recv_ready (connections (pool s)) = true -> slow_choice d e s <> None.
Proof.
  intros Hready Hnone. apply (select_None _ _ Hnone SlowRecv).
  rewrite Hready. left. reflexivity.
Qed.

Lemma closed_recv_ready s :
  is_closed s = true -> queued s = [] ->
  recv_ready (connections (pool s)) = true.
Proof.
  unfold is_closed, queued, recv_ready. intros Hc Hq. rewrite Hq. exact Hc.
Qed.

Lemma Get_closed_by_recv d e s :
  is_closed s = true -> queued s = [] ->
  fast_choice e s = Some FastRecv
  \/ (fast_choice e s = Some FastTimer /\ slow_choice d e s = Some SlowRecv) ->
  GetWithTimeout thePool d e s = (Ret (None, Some closedPool), s).
Proof.
  intros Hc Hq Hchoice.
  pose proof (closed_recv_ready _ Hc Hq) as Hready.
  unfold GetWithTimeout.
  destruct Hchoice as [Hfast | [Hfast Hslow]]; rewrite Hfast, ?Hslow;
    rewrite (received_from_queue _ Hready); rewrite Hq; reflexivity.
Qed.

(** C5, as stated, fails: on a closed pool with a free capacity slot, a
    [GetWithTimeout] whose grace timer has fired can take the slot in
    the slow [select], build connection 5 and return it with no error,
    instead of [closedPool]. *)
Lemma C5_counterexample :
  let s := st closed_one_out in
  is_closed s = true
  /\ fast_choice (env_late 5) s = Some FastTimer
  /\ slow_choice 10%Z (env_late 5) s = Some SlowCreate
  /\ result (GetWithTimeout thePool 10%Z (env_late 5)) s = Ret (Some 5, None)
  /\ tokens (exec (GetWithTimeout thePool 10%Z (env_late 5)) s) = 2.
Proof. repeat split. Qed.

(** C5, amended.  [Close] on an open pool closes the ready-queue,
    empties it and closes each connection it held; on a closed pool it
    returns the runtime's error and changes nothing.  [GetWithTimeout]
    on a closed (and drained) pool neither panics nor waits.  It returns
    [closedPool], with the store unchanged, whenever its [select] takes
    the receive from the ready-queue: always when the grace timer has
    not fired at the first [select], and always when no capacity slot is
    free and the timeout has not elapsed at the second. *)
Theorem C5_closed_pool (d : Duration) (e : Env) (s : store) :
  (is_closed s = false ->
   Close thePool s = (Ret None, closed_down s)
   /\ is_closed (closed_down s) = true
   /\ queued (closed_down s) = []
   /\ trace (closed_down s) = trace s ++ map EvClose (queued s))
  /\ (is_closed s = true ->
      Close thePool s = (Ret (Some close_of_closed), s))
  /\ (is_closed s = true -> queued s = [] ->
      closed (createsem (pool s)) = false ->
      result (GetWithTimeout thePool d e) s <> Block
      /\ (forall v, result (GetWithTimeout thePool d e) s <> Panic v)
      /\ (fast_choice e s = Some FastRecv
          \/ (fast_choice e s = Some FastTimer
              /\ slow_choice d e s = Some SlowRecv) ->
          GetWithTimeout thePool d e s = (Ret (None, Some closedPool), s))
      /\ ((elapsed1 e < Millisecond)%Z ->
          GetWithTimeout thePool d e s = (Ret (None, Some closedPool), s))
      /\ (capacity_of s <= tokens s -> (elapsed2 e < d)%Z ->
          GetWithTimeout thePool d e s = (Ret (None, Some closedPool), s))).
Proof.
  split; [|split].
  - intros Hc. rewrite (Close_open _ Hc). repeat split.
  - intros Hc. apply Close_closed. exact Hc.
  - intros Hc Hq Hsem.
    pose proof (closed_recv_ready _ Hc Hq) as Hready.
    assert (Hret : exists r s', GetWithTimeout thePool d e s = (Ret r, s')).
    { unfold GetWithTimeout.
      destruct (fast_choice e s) as [[|]|] eqn:Hfast.
      - rewrite (received_from_queue _ Hready), Hq. eauto.
      - destruct (slow_choice d e s) as [[| |]|] eqn:Hslow.
        + rewrite (received_from_queue _ Hready), Hq. eauto.
        + destruct (create_branch e s Hsem (slow_choice_create _ _ _ Hslow))
            as (s' & Heq & _).
          rewrite Heq. eauto.
        + eauto.
        + exfalso. exact (slow_choice_some d e s Hready Hslow).
      - exfalso. exact (fast_choice_some e s Hready Hfast). }
    destruct Hret as (r & s' & Hret).
    split; [unfold result; rewrite Hret; discriminate|].
    split; [intros v; unfold result; rewrite Hret; discriminate|].
    split; [apply Get_closed_by_recv; assumption|].
    split.
    + intros Hlt. apply Get_closed_by_recv; try assumption.
      left. apply fast_choice_prompt; assumption.
    + intros Hfull Hlt. apply Get_closed_by_recv; try assumption.
      destruct (fast_choice e s) as [[|]|] eqn:Hfast.
      * left. reflexivity.
      * right. split; [reflexivity|].
        apply slow_choice_only_recv; try assumption.
        unfold send_ready. rewrite Hsem. simpl.
        apply Nat.ltb_ge. exact Hfull.
      * exfalso. exact (fast_choice_some e s Hready Hfast).
Qed.

Lemma C5_closed_pool_witness :
  GetWithTimeout thePool 10%Z (env_prompt true) (st closed_one_out)
  = (Ret (None, Some closedPool), st closed_one_out).
Proof.
  destruct (C5_closed_pool 10%Z (env_prompt true) (st closed_one_out))
    as (_ & _ & H).
  destruct (H eq_refl eq_refl eq_refl) as (_ & _ & _ & Hprompt & _).
  apply Hprompt. reflexivity.
Defined.

(** * Further properties of the code *)

(** ** [defaultMkConn] *)

(** X1.  [defaultMkConn] returns a client exactly when it returns no
    error. *)
Theorem defaultMkConn_client_xor_error (h : string) (ah : AuthHandler)
    (n : Net) :
  fst (fst (defaultMkConn h ah n)) = None
  <-> snd (fst (defaultMkConn h ah n)) <> None.
Proof.
  unfold defaultMkConn.
  destruct (Connect n "tcp" h) as [conn | err]; simpl.
  - destruct (GetCredentials ah) as [name pass].
    destruct (String.eqb name "default"); simpl.
    + split; [discriminate | intros H; exfalso; apply H; reflexivity].
    + destruct (Auth n conn name pass); simpl.
      * split; [discriminate | reflexivity].
      * split; [discriminate | intros H; exfalso; apply H; reflexivity].
  - split; [discriminate | reflexivity].
Qed.

(** X2.  The connection [defaultMkConn] opened is either returned, and
    then it was not closed, or it was closed, and then the error of the
    authentication is returned: no opened connection is left behind. *)
Theorem defaultMkConn_returns_or_closes (h : string) (ah : AuthHandler)
    (n : Net) (conn : Client) :
  Connect n "tcp" h = inl conn ->
  (fst (defaultMkConn h ah n) = (Some conn, None)
   /\ ~ In (EvClose conn) (snd (defaultMkConn h ah n)))
  \/ (exists err,
        Auth n conn (fst (GetCredentials ah)) (snd (GetCredentials ah))
        = Some err
        /\ fst (defaultMkConn h ah n) = (None, Some err)
        /\ In (EvClose conn) (snd (defaultMkConn h ah n))).
Proof.
  intros Hc. unfold defaultMkConn. rewrite Hc.
  destruct (GetCredentials ah) as [name pass]. simpl.
  destruct (String.eqb name "default"); simpl.
  - left. split; [reflexivity|]. intros [H | []]. discriminate H.
  - destruct (Auth n conn name pass) as [err|]; simpl.
    + right. exists err. repeat split. right. right. left. reflexivity.
    + left. split; [reflexivity|].
      intros [H | [H | []]]; discriminate H.
Qed.

Lemma defaultMkConn_returns_or_closes_witness :
  exists err,
    Auth (net_auth_refused 4) 4 (fst (GetCredentials bucket_user))
      (snd (GetCredentials bucket_user)) = Some err
    /\ fst (defaultMkConn "cb1:11210"%string bucket_user (net_auth_refused 4))
       = (None, Some err)
    /\ In (EvClose 4)
         (snd (defaultMkConn "cb1:11210"%string bucket_user (net_auth_refused 4))).
Proof.
  destruct (@defaultMkConn_returns_or_closes "cb1:11210"%string bucket_user
              (net_auth_refused 4) 4 eq_refl) as [[H _] | H].
  - discriminate H.
  - exact H.
Defined.

(** X3.  With the credential name "default", [defaultMkConn] never
    authenticates: it returns what [memcached.Connect] gave, whatever
    the authentication would have answered; with any other name and a
    connection made, it authenticates once. *)
Theorem defaultMkConn_default_skips_auth (h : string) (ah : AuthHandler)
    (n : Net) :
  (fst (GetCredentials ah) = "default"%string ->
   defaultMkConn h ah n
   = (match Connect n "tcp" h with
      | inl conn => (Some conn, None)
      | inr err => (None, Some err)
      end, [EvConnect "tcp" h]))
  /\ (fst (GetCredentials ah) <> "default"%string ->
      forall conn, Connect n "tcp" h = inl conn ->
      exists rest,
        snd (defaultMkConn h ah n)
        = EvConnect "tcp" h :: EvAuth conn (fst (GetCredentials ah)) :: rest
        /\ forall c name, ~ In (EvAuth c name) rest).
Proof.
  unfold defaultMkConn. split.
  - intros Hname. destruct (Connect n "tcp" h) as [conn | err]; [|reflexivity].
    destruct (GetCredentials ah) as [name pass]. simpl in Hname. subst name.
    reflexivity.
  - intros Hname conn Hc. rewrite Hc.
    destruct (GetCredentials ah) as [name pass]. simpl in *.
    destruct (String.eqb_spec name "default") as [->|_]; [contradiction|].
    destruct (Auth n conn name pass); simpl; eexists; split;
      try reflexivity; intros c nm Hin; simpl in Hin;
      repeat (destruct Hin as [Hin | Hin]; try discriminate Hin);
      contradiction.
Qed.

Lemma defaultMkConn_default_skips_auth_witness :
  defaultMkConn "cb1:11210"%string anonymous (net_auth_refused 4)
  = ((Some 4, None), [EvConnect "tcp"%string "cb1:11210"%string]).
Proof.
  exact (proj1 (defaultMkConn_default_skips_auth "cb1:11210"%string anonymous
                  (net_auth_refused 4)) eq_refl).
Defined.

(** ** [newConnectionPool] *)

(** X4.  For Go ints, [newConnectionPool] builds a pool exactly when
    [poolSize] and [poolSize + poolOverflow] are not negative and the sum
    does not overflow; a negative [poolOverflow] is accepted as long as
    the sum is not negative.  The pool built has an empty, open
    ready-queue of capacity [poolSize], no token taken out of
    [poolSize + poolOverflow], and the default factory. *)
Theorem newConnectionPool_succeeds_iff (h : string) (ah : AuthHandler)
    (poolSize poolOverflow : Z) :
  int64_range poolSize -> int64_range poolOverflow ->
  (newConnectionPool h ah poolSize poolOverflow <> None
   <-> (0 <= poolSize /\ 0 <= poolSize + poolOverflow < 2 ^ 63)%Z)
  /\ (forall p, newConnectionPool h ah poolSize poolOverflow = Some p ->
      p = {| host := h; mkConn := defaultMkConn; auth := ah;
             connections := {| buf := []; cap := Z.to_nat poolSize;
                               closed := false |};
             createsem := {| buf := [];
                             cap := Z.to_nat (poolSize + poolOverflow);
                             closed := false |} |}).
Proof.
  intros Hs Ho. split.
  - unfold newConnectionPool, make_chan. split.
    + destruct (Z.ltb_spec poolSize 0) as [|Hs0];
        [intros Hn; exfalso; apply Hn; reflexivity|].
      destruct (Z.ltb_spec (wrap64 (poolSize + poolOverflow)) 0) as [|Hw];
        [intros Hn; exfalso; apply Hn; reflexivity|].
      intros _. pose proof (wrap64_nonneg_sum Hs Ho Hs0 Hw) as E.
      split; [exact Hs0|].
      assert (Hup : (wrap64 (poolSize + poolOverflow) < 2 ^ 63)%Z).
      { unfold wrap64.
        pose proof (Z.mod_pos_bound (poolSize + poolOverflow + 2 ^ 63)
                      (2 ^ 64) eq_refl) as Hb.
        lia. }
      lia.
    + intros [Hs0 [Hlo Hhi]].
      destruct (Z.ltb_spec poolSize 0) as [|_]; [lia|].
      assert (E : wrap64 (poolSize + poolOverflow)
                  = (poolSize + poolOverflow)%Z).
      { unfold wrap64. rewrite Z.mod_small; lia. }
      rewrite E.
      destruct (Z.ltb_spec (poolSize + poolOverflow) 0) as [|_]; [lia|].
      discriminate.
  - intros p Hnew.
    destruct (newConnectionPool_caps _ _ Hs Ho Hnew) as (_ & _ & Hq & Hsem).
    unfold newConnectionPool in Hnew.
    destruct (make_chan Client poolSize); [|discriminate].
    destruct (make_chan bool (wrap64 (poolSize + poolOverflow)));
      [|discriminate].
    inversion Hnew; subst p. simpl in *. subst. reflexivity.
Qed.

Lemma newConnectionPool_succeeds_iff_witness :
  newConnectionPool "cb1:11210" anonymous 2 (-1) <> None
  /\ newConnectionPool "cb1:11210" anonymous (-1) 2 = None.
Proof.
  assert (Hm1 : int64_range (-1)) by (unfold int64_range; simpl; lia).
  split.
  - apply (proj1 (@newConnectionPool_succeeds_iff "cb1:11210"%string
                    anonymous 2 (-1) int64_range_2 Hm1)).
    simpl. lia.
  - destruct (newConnectionPool "cb1:11210" anonymous (-1) 2) eqn:E;
      [|reflexivity].
    assert (Hne : newConnectionPool "cb1:11210" anonymous (-1) 2 <> None)
      by (rewrite E; discriminate).
    apply (proj1 (@newConnectionPool_succeeds_iff "cb1:11210"%string
                    anonymous (-1) 2 Hm1 int64_range_2)) in Hne.
    lia.
Defined.

(** ** [Close] *)

(** X5.  [Close] always returns, for every receiver and every store: it
    neither panics nor waits.  It returns no error exactly when the
    receiver is not nil and the pool was open; calling it again changes
    nothing more. *)
Theorem Close_always_returns (cp : poolref) (s : store) :
  (exists err, result (Close cp) s = Ret err
               /\ (err = None <-> cp = thePool /\ is_closed s = false))
  /\ exec (Close cp) (exec (Close cp) s) = exec (Close cp) s.
Proof.
  unfold result, exec. destruct cp.
  - split; [|reflexivity]. eexists. split; [reflexivity|].
    split; [discriminate | intros [H _]; discriminate H].
  - destruct (is_closed s) eqn:Hc.
    + rewrite (Close_closed _ Hc). cbn [fst snd]. rewrite (Close_closed _ Hc).
      split; [|reflexivity]. eexists. split; [reflexivity|].
      split; [discriminate | intros [_ H]; discriminate H].
    + rewrite (Close_open _ Hc). cbn [fst snd].
      assert (Hc' : is_closed (closed_down s) = true) by reflexivity.
      rewrite (Close_closed _ Hc').
      split; [|reflexivity]. eexists. split; [reflexivity|].
      split; auto.
Qed.

(** ** When [GetWithTimeout] waits *)

Lemma recv_ready_false s :
  recv_ready (connections (pool s)) = false
  <-> queued s = [] /\ is_closed s = false.
Proof.
  unfold recv_ready, queued, is_closed.
  destruct (buf (connections (pool s))); split.
  - auto.
  - intros [_ H]. exact H.
  - discriminate.
  - intros [H _]. discriminate H.
Qed.

Lemma select_nothing_ready (C : Type) (cases : list (C * bool)) (rnd : nat) :
  (forall c, ~ In (c, true) cases) -> select cases rnd = None.
Proof.
  intros Hnone. unfold select, ready_cases.
  assert (E : map fst (filter snd cases) = []).
  { destruct (map fst (filter snd cases)) as [|c r] eqn:E; [reflexivity|].
    exfalso. apply (Hnone c).
    assert (Hin : In c (map fst (filter snd cases)))
      by (rewrite E; left; reflexivity).
    apply in_map_iff in Hin as [[c' b] [Hc Hin]]. simpl in Hc. subst c'.
    apply filter_In in Hin as [Hin Hb]. simpl in Hb. subst b. exact Hin. }
  rewrite E. apply nth_error_None. simpl. lia.
Qed.

Lemma GetWithTimeout_waits_iff d e s :
  closed (createsem (pool s)) = false ->
  (result (GetWithTimeout thePool d e) s = Block
   <-> queued s = [] /\ is_closed s = false
       /\ ((elapsed1 e < Millisecond)%Z
           \/ (capacity_of s <= tokens s /\ (elapsed2 e < d)%Z))).
Proof.
  intros Hsem. unfold result, GetWithTimeout. split.
  - destruct (fast_choice e s) as [[|]|] eqn:Hfast.
    + rewrite (received_from_queue _ (fast_choice_recv _ _ Hfast)).
      destruct (queued s); discriminate.
    + destruct (slow_choice d e s) as [[| |]|] eqn:Hslow.
      * rewrite (received_from_queue _ (slow_choice_recv _ _ _ Hslow)).
        destruct (queued s); discriminate.
      * destruct (create_branch e s Hsem (slow_choice_create _ _ _ Hslow))
          as (s' & Heq & _).
        rewrite Heq. discriminate.
      * discriminate.
      * intros _. pose proof (select_None _ _ Hslow) as Hn.
        assert (Hr : recv_ready (connections (pool s)) = false).
        { destruct (recv_ready (connections (pool s))) eqn:E; [|reflexivity].
          exfalso. apply (Hn SlowRecv). left. reflexivity. }
        assert (Hc : send_ready (createsem (pool s)) false = false).
        { destruct (send_ready (createsem (pool s)) false) eqn:E;
            [|reflexivity].
          exfalso. apply (Hn SlowCreate). right. left. reflexivity. }
        assert (Ht : (d <=? elapsed2 e)%Z = false).
        { destruct (d <=? elapsed2 e)%Z eqn:E; [|reflexivity].
          exfalso. apply (Hn SlowTimeout). right. right. left. reflexivity. }
        apply recv_ready_false in Hr. destruct Hr as [Hq Hcl].
        unfold send_ready in Hc. rewrite Hsem in Hc. simpl in Hc.
        apply Nat.ltb_ge in Hc. apply Z.leb_gt in Ht.
        repeat split; auto.
    + intros _. pose proof (select_None _ _ Hfast) as Hn.
      assert (Hr : recv_ready (connections (pool s)) = false).
      { destruct (recv_ready (connections (pool s))) eqn:E; [|reflexivity].
        exfalso. apply (Hn FastRecv). left. reflexivity. }
      assert (Ht : (Millisecond <=? elapsed1 e)%Z = false).
      { destruct (Millisecond <=? elapsed1 e)%Z eqn:E; [|reflexivity].
        exfalso. apply (Hn FastTimer). right. left. reflexivity. }
      apply recv_ready_false in Hr. destruct Hr as [Hq Hcl].
      apply Z.leb_gt in Ht. repeat split; auto.
  - intros (Hq & Hcl & Hwait).
    assert (Hr : recv_ready (connections (pool s)) = false)
      by (apply recv_ready_false; split; assumption).
    destruct (Z.leb_spec Millisecond (elapsed1 e)) as [Hge | Hlt].
    + destruct Hwait as [Hlt | [Hfull Hlt]]; [lia|].
      assert (Hfast : fast_choice e s = Some FastTimer).
      { unfold fast_choice, select, ready_cases. rewrite Hr.
        apply Z.leb_le in Hge. rewrite Hge.
        cbn [filter snd map fst List.length]. rewrite Nat.mod_1_r.
        reflexivity. }
      assert (Hslow : slow_choice d e s = None).
      { unfold slow_choice. apply select_nothing_ready. intros c Hin.
        simpl in Hin. unfold send_ready in Hin. rewrite Hr, Hsem in Hin.
        apply Nat.ltb_ge in Hfull. apply Z.leb_gt in Hlt.
        simpl in Hin. unfold tokens, capacity_of in Hfull.
        rewrite Hfull, Hlt in Hin.
        destruct Hin as [H | [H | [H | []]]]; discriminate H. }
      rewrite Hfast, Hslow. reflexivity.
    + assert (Hfast : fast_choice e s = None).
      { unfold fast_choice. apply select_nothing_ready. intros c Hin.
        simpl in Hin. rewrite Hr in Hin. apply Z.leb_gt in Hlt.
        rewrite Hlt in Hin.
        destruct Hin as [H | [H | []]]; discriminate H. }
      rewrite Hfast. reflexivity.
Qed.

(** X6.  [GetWithTimeout] waits exactly when no connection is idle,
    the pool is open, and either the grace period of 1 ms is not over
    or no capacity slot is free and the timeout [d] has not elapsed.
    So it never waits once the grace period and [d] have elapsed, and
    never on a closed pool. *)
Theorem GetWithTimeout_waits_exactly_when (d : Duration) (e : Env)
    (s : store) :
  closed (createsem (pool s)) = false ->
  (result (GetWithTimeout thePool d e) s = Block
   <-> queued s = [] /\ is_closed s = false
       /\ ((elapsed1 e < Millisecond)%Z
           \/ (capacity_of s <= tokens s /\ (elapsed2 e < d)%Z)))
  /\ ((Millisecond <= elapsed1 e)%Z -> (d <= elapsed2 e)%Z ->
      result (GetWithTimeout thePool d e) s <> Block)
  /\ (is_closed s = true -> result (GetWithTimeout thePool d e) s <> Block).
Proof.
  intros Hsem. pose proof (GetWithTimeout_waits_iff d e s Hsem) as Hiff.
  split; [exact Hiff|]. split.
  - intros H1 H2 Hb. apply Hiff in Hb. destruct Hb as (_ & _ & [H | [_ H]]); lia.
  - intros Hc Hb. apply Hiff in Hb. destruct Hb as (_ & Ho & _). congruence.
Qed.

Lemma GetWithTimeout_waits_exactly_when_witness :
  result (GetWithTimeout thePool 10000000%Z (env_waited 10000000%Z))
    (st three_out) <> Block.
Proof.
  destruct (@GetWithTimeout_waits_exactly_when 10000000%Z
              (env_waited 10000000%Z) (st three_out) eq_refl)
    as (_ & H & _).
  apply H; simpl; unfold Millisecond; lia.
Defined.

(** ** What [GetWithTimeout] and [Return] leave alone *)

Lemma received_frame s :
  tokens (snd ((r <- recv_connections ;; received r) s)) = tokens s
  /\ trace (snd ((r <- recv_connections ;; received r) s)) = trace s.
Proof.
  unfold bind, recv_connections.
  destruct (chanrecv (connections (pool s))); split; reflexivity.
Qed.

(** X7.  [GetWithTimeout] never gives a token back that it did not take
    and takes at most one.  With the capacity used up it does not call
    the factory and leaves the tokens as they are; so it does during the
    grace period. *)
Theorem GetWithTimeout_builds_only_with_free_slot (cp : poolref)
    (d : Duration) (e : Env) (s : store) :
  (tokens s <= tokens (exec (GetWithTimeout cp d e) s) <= S (tokens s))
  /\ (capacity_of s <= tokens s ->
      trace (exec (GetWithTimeout cp d e) s) = trace s
      /\ tokens (exec (GetWithTimeout cp d e) s) = tokens s)
  /\ ((elapsed1 e < Millisecond)%Z ->
      trace (exec (GetWithTimeout cp d e) s) = trace s
      /\ tokens (exec (GetWithTimeout cp d e) s) = tokens s).
Proof.
  unfold exec. destruct cp; [simpl; repeat split; auto; lia|].
  destruct (received_frame s) as [Hrt Hrtr].
  unfold GetWithTimeout.
  destruct (fast_choice e s) as [[|]|] eqn:Hfast;
    [rewrite Hrt, Hrtr; repeat split; auto; lia | |
     simpl; repeat split; auto; lia].
  assert (Hgrace : (Millisecond <= elapsed1 e)%Z).
  { apply select_In in Hfast. simpl in Hfast.
    destruct Hfast as [Hf | [Hf | []]]; inversion Hf as [Ht].
    apply Z.leb_le. rewrite <- Ht. reflexivity. }
  destruct (slow_choice d e s) as [[| |]|];
    [rewrite Hrt, Hrtr; repeat split; auto; lia | |
     simpl; repeat split; auto; lia | simpl; repeat split; auto; lia].
  unfold bind, send_createsem, chansend, call_mkConn, recv_createsem,
    chanrecv, tokens, capacity_of.
  destruct (closed (createsem (pool s))); simpl;
    [repeat split; auto; lia|].
  destruct (Nat.ltb_spec (List.length (buf (createsem (pool s))))
              (cap (createsem (pool s)))) as [Hfree | Hfull]; simpl;
    [|repeat split; auto; lia].
  destruct (mkConn (pool s) (host (pool s)) (auth (pool s)) (net e))
    as [[rv [err|]] evs]; simpl.
  - revert Hfree.
    destruct (buf (createsem (pool s))) as [|t ts]; simpl; intros Hfree;
      rewrite ?length_app; simpl; repeat split; intros; lia.
  - rewrite length_app. simpl. repeat split; intros; lia.
Qed.

Lemma GetWithTimeout_builds_only_with_free_slot_witness :
  trace (exec (GetWithTimeout thePool 10000000%Z (env_build 4))
           (st three_out)) = trace (st three_out)
  /\ tokens (exec (GetWithTimeout thePool 10000000%Z (env_build 4))
              (st three_out)) = tokens (st three_out).
Proof.
  destruct (GetWithTimeout_builds_only_with_free_slot thePool 10000000%Z
              (env_build 4) (st three_out)) as (_ & H & _).
  apply H. unfold capacity_of, tokens. simpl. lia.
Defined.

(** X8.  [Return] never takes a token and releases at most one; it
    never removes an idle connection: the ready-queue afterwards is the
    one before, or the one before with the returned connection added
    last.  It never calls the factory or starts a feed: what it adds to
    the trace is the liveness check, followed at most by the closing of
    the connection it was given. *)
Theorem Return_frame (cp : poolref) (c : Client) (e : Env) (s : store) :
  (tokens (exec (Return cp (Some c) e) s) = tokens s
   \/ S (tokens (exec (Return cp (Some c) e) s)) = tokens s)
  /\ (queued (exec (Return cp (Some c) e) s) = queued s
      \/ queued (exec (Return cp (Some c) e) s) = queued s ++ [c])
  /\ (trace (exec (Return cp (Some c) e) s) = trace s
      \/ trace (exec (Return cp (Some c) e) s) = trace s ++ [EvIsHealthy c]
      \/ trace (exec (Return cp (Some c) e) s)
         = trace s ++ [EvIsHealthy c; EvClose c]).
Proof.
  unfold exec. destruct cp; [simpl; auto|].
  assert (Hretire :
    let s' := snd ((recv_createsem ;; conn_Close c) (checked c s)) in
    (tokens s' = tokens s \/ S (tokens s') = tokens s)
    /\ queued s' = queued s
    /\ (trace s' = trace s ++ [EvIsHealthy c]
        \/ trace s' = trace s ++ [EvIsHealthy c; EvClose c])).
  { unfold bind, recv_createsem, conn_Close, emit, chanrecv.
    store_simpl.
    destruct (buf (createsem (pool s))) as [|t ts] eqn:Hb; simpl.
    - destruct (closed (createsem (pool s))); simpl;
        rewrite <- ?app_assoc, ?Hb; simpl; repeat split; auto.
    - rewrite <- app_assoc, ?Hb. simpl. repeat split; auto. }
  destruct (Return_cases s c e) as [H | [H | [H | H]]]; rewrite H.
  - store_simpl. rewrite <- app_assoc. simpl. repeat split; auto.
  - store_simpl. repeat split; auto.
  - store_simpl. repeat split; auto.
  - destruct Hretire as (Ht & Hq & Htr). cbn zeta in *.
    split; [exact Ht|]. split; [left; exact Hq|]. right. exact Htr.
Qed.
